(** * Matrix operations: a shallow embedding of [templates/c/matrix_operations.c]

    The C file declares a fixed-capacity matrix

<<
    #define MAX 10
    typedef struct { int rows, cols; double data[MAX][MAX]; } Matrix;
>>

    and a handful of functions over it.  This development embeds them as Rocq
    functions and states what they compute.

    - A [double] is an IEEE-754 binary64 value, taken from the Standard
      Library's [SpecFloat] (precision 53, maximal exponent 1024, rounding to
      nearest even, one NaN).  Every C operator rounds on its own: [x + y * z]
      is a product, rounded, then a sum, rounded (no fused multiply-add).
    - An [int] is a [Z]; the only arithmetic the functions do on ints is the
      loop increment, which stays below the loop bound.
    - [data] is a table of cells indexed by two ints.  Only the cells with both
      indices in [[0, MAX)] exist in C: [load] and [store] check the indices,
      and an access outside the array ends the computation with [Undefined]
      (the C program has no defined behaviour there; nothing is reported to
      the caller).
    - [Matrix m;] declares an automatic object that is not initialised: its
      cells hold indeterminate values.  Every function that declares such an
      object takes these values as its first argument, [uninit].
    - Standard output is the list of the calls of [printf] made so far, each
      with its format and its arguments; turning an argument into digits is
      left to [printf]. *)

From Stdlib Require Import ZArith List Lia Bool.
From Stdlib Require Import Floats.SpecFloat.
From Stdlib Require Import Strings.String Strings.Ascii.
Import ListNotations.
Open Scope Z_scope.

(** ** Doubles *)

Definition double : Type := spec_float.

Definition prec : Z := 53.
Definition emax : Z := 1024.

Definition fadd : double -> double -> double := SFadd prec emax.
Definition fsub : double -> double -> double := SFsub prec emax.
Definition fmul : double -> double -> double := SFmul prec emax.
Definition fabs : double -> double := SFabs.

(** The C comparisons [x > y], [x <= y] and [x == y] on doubles: all three are
    false as soon as one operand is a NaN. *)
Definition fgt (x y : double) : bool := SFltb y x.
Definition fle (x y : double) : bool := SFleb x y.
Definition feq (x y : double) : bool := SFeqb x y.

(** Conversion of an int to double, as in [m.data[i][j] = 0] and
    [double sum = 0]. *)
Definition double_of_int (z : Z) : double := binary_normalize prec emax z 0 false.

Definition zero : double := Eval cbv in double_of_int 0.

(** The literal [1.0]. *)
Definition one : double := Eval cbv in double_of_int 1.

(** The literal [1e-9]: the binary64 number nearest to 10^-9, that is
    4835703278458517 * 2^-82 (0x3E112E0BE826D695). *)
Definition eps : double := S754_finite false 4835703278458517 (-82).

(** A double that is a number: a zero, or a finite value that fits the format.
    Infinities and NaN are excluded. *)
Definition is_finite (x : double) : bool :=
  match x with
  | S754_zero _ => true
  | S754_finite _ m e => bounded prec emax m e
  | _ => false
  end.

(** ** Outcomes of a C computation *)

Inductive outcome (A : Type) : Type :=
| Ok (a : A)
| Undefined.

Arguments Ok {A} a.
Arguments Undefined {A}.

Definition bind {A B : Type} (c : outcome A) (k : A -> outcome B) : outcome B :=
  match c with
  | Ok a => k a
  | Undefined => Undefined
  end.

Notation "x <- c ;; k" := (bind c (fun x => k))
  (at level 61, c at next level, right associativity).

(** [fails c]: the computation does not hand a value back to its caller.  This
    is the weakest reading of "the call fails with an error". *)
Definition fails {A : Type} (c : outcome A) : Prop := forall a, c <> Ok a.

(** ** The matrix type *)

Definition MAX : Z := 10.

Definition cells : Type := Z -> Z -> double.

Record Matrix : Type := mkMatrix { rows : Z; cols : Z; data : cells }.

Definition in_array (i j : Z) : bool :=
  (0 <=? i) && (i <? MAX) && (0 <=? j) && (j <? MAX).

(** [m->data[i][j]] read. *)
Definition load (m : Matrix) (i j : Z) : outcome double :=
  if in_array i j then Ok (data m i j) else Undefined.

Definition update (d : cells) (i j : Z) (v : double) : cells :=
  fun i' j' => if (i' =? i) && (j' =? j) then v else d i' j'.

(** [m.data[i][j] = v]. *)
Definition store (m : Matrix) (i j : Z) (v : double) : outcome Matrix :=
  if in_array i j
  then Ok (mkMatrix (rows m) (cols m) (update (data m) i j v))
  else Undefined.

(** ** Loops *)

(** The values taken by [i] in [for (int i = 0; i < n; i++)]. *)
Definition upto (n : Z) : list Z := map Z.of_nat (seq 0 (Z.to_nat n)).

Fixpoint for_each {S : Type} (l : list Z) (body : Z -> S -> outcome S) (s : S)
  : outcome S :=
  match l with
  | [] => Ok s
  | i :: l' => s' <- body i s ;; for_each l' body s'
  end.

(** [for (int i = 0; i < n; i++) body] over a state [s]. *)
Definition for_loop {S : Type} (n : Z) (body : Z -> S -> outcome S) (s : S)
  : outcome S :=
  for_each (upto n) body s.

(** A loop whose body may [return]: [Some r] is "returned r", [None] is "fell
    through to the next iteration". *)
Fixpoint for_each_ret {R : Type} (l : list Z) (body : Z -> outcome (option R))
  : outcome (option R) :=
  match l with
  | [] => Ok None
  | i :: l' =>
      r <- body i ;;
      match r with
      | Some v => Ok (Some v)
      | None => for_each_ret l' body
      end
  end.

Definition for_loop_ret {R : Type} (n : Z) (body : Z -> outcome (option R))
  : outcome (option R) :=
  for_each_ret (upto n) body.

(** ** Standard output *)

Inductive printf_arg : Type :=
| AStr (s : string)
| AInt (n : Z)
| ADouble (x : double).

(** [printf(format, args...)]. *)
Record printf_call : Type := printf { format : string; args : list printf_arg }.

Definition output : Type := list printf_call.

(** The character written [\n] in a C literal. *)
Definition nl : string := String "010" EmptyString.

(** ** The functions of the C file *)

Definition create_matrix (uninit : cells) (rows cols : Z) : outcome Matrix :=
  let m := mkMatrix rows cols uninit in
  for_loop rows (fun i m =>
    for_loop cols (fun j m =>
      store m i j (double_of_int 0)) m) m.

Definition add (uninit : cells) (a b : Matrix) : outcome Matrix :=
  result <- create_matrix uninit (rows a) (cols a) ;;
  for_loop (rows a) (fun i result =>
    for_loop (cols a) (fun j result =>
      x <- load a i j ;;
      y <- load b i j ;;
      store result i j (fadd x y)) result) result.

Definition subtract (uninit : cells) (a b : Matrix) : outcome Matrix :=
  result <- create_matrix uninit (rows a) (cols a) ;;
  for_loop (rows a) (fun i result =>
    for_loop (cols a) (fun j result =>
      x <- load a i j ;;
      y <- load b i j ;;
      store result i j (fsub x y)) result) result.

Definition multiply (uninit : cells) (a b : Matrix) : outcome Matrix :=
  result <- create_matrix uninit (rows a) (cols b) ;;
  for_loop (rows a) (fun i result =>
    for_loop (cols b) (fun j result =>
      for_loop (cols a) (fun k result =>
        x <- load a i k ;;
        y <- load b k j ;;
        r <- load result i j ;;
        store result i j (fadd r (fmul x y))) result) result) result.

Definition transpose (uninit : cells) (m : Matrix) : outcome Matrix :=
  result <- create_matrix uninit (cols m) (rows m) ;;
  for_loop (rows m) (fun i result =>
    for_loop (cols m) (fun j result =>
      x <- load m i j ;;
      store result j i x) result) result.

Definition scalar_multiply (uninit : cells) (m : Matrix) (scalar : double)
  : outcome Matrix :=
  result <- create_matrix uninit (rows m) (cols m) ;;
  for_loop (rows m) (fun i result =>
    for_loop (cols m) (fun j result =>
      x <- load m i j ;;
      store result i j (fmul x scalar)) result) result.

Definition determinant_2x2 (m : Matrix) : outcome double :=
  a <- load m 0 0 ;;
  d <- load m 1 1 ;;
  b <- load m 0 1 ;;
  c <- load m 1 0 ;;
  Ok (fsub (fmul a d) (fmul b c)).

Definition trace (m : Matrix) : outcome double :=
  let sum := double_of_int 0 in
  let min := if rows m <? cols m then rows m else cols m in
  for_loop min (fun i sum =>
    x <- load m i i ;;
    Ok (fadd sum x)) sum.

Definition is_symmetric (m : Matrix) : outcome Z :=
  if negb (rows m =? cols m) then Ok 0
  else
    r <- for_loop_ret (rows m) (fun i =>
           for_loop_ret (cols m) (fun j =>
             x <- load m i j ;;
             y <- load m j i ;;
             if fgt (fabs (fsub x y)) eps then Ok (Some 0) else Ok None)) ;;
    match r with
    | Some v => Ok v
    | None => Ok 1
    end.

Definition identity (uninit : cells) (n : Z) : outcome Matrix :=
  m <- create_matrix uninit n n ;;
  for_loop n (fun i m => store m i i one) m.

Definition print_matrix (name : string) (m : Matrix) (out : output) : outcome output :=
  let out := out ++ [printf (nl ++ "  %s (%dx%d):" ++ nl) [AStr name; AInt (rows m); AInt (cols m)]] in
  for_loop (rows m) (fun i out =>
    let out := out ++ [printf "  │" []] in
    out <- for_loop (cols m) (fun j out =>
             x <- load m i j ;;
             Ok (out ++ [printf " %7.2f" [ADouble x]])) out ;;
    Ok (out ++ [printf (" │" ++ nl) []])) out.

(** [double vals[3][3] = {...}; ... vals[i][j]], the initialisers being int
    constants. *)
Definition table_entry (vals : list (list Z)) (i j : Z) : double :=
  double_of_int (nth (Z.to_nat j) (nth (Z.to_nat i) vals []) 0).

(** [main]; [garbage x] is the indeterminate content of the matrix that ends
    up in the local [x].  The result is the exit status and what was
    printed. *)
Definition main (garbage : string -> cells) : outcome (Z * output) :=
  let out := [printf ("==================================================" ++ nl) []] in
  let out := out ++ [printf ("  📐 Matrix Operations" ++ nl) []] in
  let out := out ++ [printf ("==================================================" ++ nl) []] in
  a <- create_matrix (garbage "a"%string) 3 3 ;;
  let vals_a := [[1; 2; 3]; [4; 5; 6]; [7; 8; 9]] in
  a <- for_loop 3 (fun i a =>
         for_loop 3 (fun j a => store a i j (table_entry vals_a i j)) a) a ;;
  b <- create_matrix (garbage "b"%string) 3 3 ;;
  let vals_b := [[9; 8; 7]; [6; 5; 4]; [3; 2; 1]] in
  b <- for_loop 3 (fun i b =>
         for_loop 3 (fun j b => store b i j (table_entry vals_b i j)) b) b ;;
  out <- print_matrix "Matrix A" a out ;;
  out <- print_matrix "Matrix B" b out ;;
  sum <- add (garbage "sum"%string) a b ;;
  out <- print_matrix "A + B" sum out ;;
  diff <- subtract (garbage "diff"%string) a b ;;
  out <- print_matrix "A - B" diff out ;;
  prod <- multiply (garbage "prod"%string) a b ;;
  out <- print_matrix "A × B" prod out ;;
  trans <- transpose (garbage "trans"%string) a ;;
  out <- print_matrix "Transpose(A)" trans out ;;
  scaled <- scalar_multiply (garbage "scaled"%string) a (double_of_int 2) ;;
  out <- print_matrix "2 × A" scaled out ;;
  let out := out ++ [printf (nl ++ "  📊 Properties of A:" ++ nl) []] in
  t <- trace a ;;
  let out := out ++ [printf ("    Trace:     %.2f" ++ nl) [ADouble t]] in
  sym <- is_symmetric a ;;
  let out := out ++ [printf ("    Symmetric: %s" ++ nl)
                       [AStr (if sym =? 0 then "No ❌" else "Yes ✅")]] in
  small <- create_matrix (garbage "small"%string) 2 2 ;;
  small <- store small 0 0 (double_of_int 3) ;;
  small <- store small 0 1 (double_of_int 8) ;;
  small <- store small 1 0 (double_of_int 4) ;;
  small <- store small 1 1 (double_of_int 6) ;;
  out <- print_matrix "2x2 Matrix" small out ;;
  det <- determinant_2x2 small ;;
  let out := out ++ [printf ("    Determinant: %.2f" ++ nl) [ADouble det]] in
  id <- identity (garbage "id"%string) 3 ;;
  out <- print_matrix "Identity(3)" id out ;;
  let out := out ++ [printf (nl ++ "  👋 Done!" ++ nl) []] in
  Ok (0, out).

(** Reading a matrix back as text would: the logical entries, row by row. *)
Definition entries (m : Matrix) : list (list double) :=
  map (fun i => map (fun j => data m i j) (upto (cols m))) (upto (rows m)).

(** The demonstration of [main]: a matrix is created and then filled by direct
    assignment from a table of int constants. *)
Definition assign_all (m : Matrix) (vals : list (list Z)) : outcome Matrix :=
  for_loop (rows m) (fun i m =>
    for_loop (cols m) (fun j m =>
      store m i j (double_of_int (nth (Z.to_nat j) (nth (Z.to_nat i) vals []) 0))) m) m.

Definition matrix_of (uninit : cells) (r c : Z) (vals : list (list Z))
  : outcome Matrix :=
  m <- create_matrix uninit r c ;; assign_all m vals.

(** ** Equality of matrices *)

(** Two matrices are the same value when they have the same shape and the same
    logical entries; cells outside the shape do not count. *)
Definition same_matrix (x y : Matrix) : Prop :=
  rows x = rows y /\ cols x = cols y /\
  forall i j, 0 <= i < rows x -> 0 <= j < cols x -> data x i j = data y i j.

(** The same, with entries compared by the C operator [==] on doubles. *)
Definition equal_entries (x y : Matrix) : Prop :=
  rows x = rows y /\ cols x = cols y /\
  forall i j, 0 <= i < rows x -> 0 <= j < cols x ->
    feq (data x i j) (data y i j) = true.

(** The backing array can hold the shape. *)
Definition within_capacity (m : Matrix) : Prop :=
  rows m <= MAX /\ cols m <= MAX.

(** The invariant of the data model. *)
Definition valid (m : Matrix) : Prop :=
  0 < rows m <= MAX /\ 0 < cols m <= MAX.

Definition all_finite (m : Matrix) : Prop :=
  forall i j, 0 <= i < rows m -> 0 <= j < cols m -> is_finite (data m i j) = true.

(** ** Definitions used by the statements *)

(** [inside R C i j]: cell [(i, j)] is a logical entry of shape [R x C]. *)
Definition inside (R C i j : Z) : bool :=
  (0 <=? i) && (i <? R) && (0 <=? j) && (j <? C).

(** The cell that iteration [(i, j)] writes: [(i, j)] itself, or [(j, i)] in
    [transpose]. *)
Definition target (sw : bool) (i j : Z) : Z * Z := if sw then (j, i) else (i, j).

(** Has cell [(i', j')] been written by the iterations that come before
    iteration [(i, j)] of a loop nest with [C] columns, in row-major order? *)
Definition visited (C : Z) (sw : bool) (i j i' j' : Z) : bool :=
  let (a, b) := target sw i' j' in
  inside i C a b || ((a =? i) && (0 <=? b) && (b <? j)).

(** The state of the result before iteration [(i, j)], when each iteration
    replaces the content [v] of its target cell by [g i j v]. *)
Definition after (C : Z) (sw : bool) (g : Z -> Z -> double -> double)
    (r0 : Matrix) (i j : Z) (r : Matrix) : Prop :=
  rows r = rows r0 /\ cols r = cols r0 /\
  forall i' j', data r i' j' =
    if visited C sw i j i' j'
    then g (fst (target sw i' j')) (snd (target sw i' j')) (data r0 i' j')
    else data r0 i' j'.

(** The dot product that [multiply] accumulates into one cell: the terms
    [a[i][k] * b[k][j]] are added to [acc] one after the other, [k] going up. *)
Definition dot (a b : Matrix) (i j : Z) (n : Z) (acc : double) : double :=
  fold_left (fun s k => fadd s (fmul (data a i k) (data b k j))) (upto n) acc.

(** The sum that [trace] accumulates over the first [n] diagonal entries. *)
Definition diag_sum (m : Matrix) (n : Z) : double :=
  fold_left (fun s i => fadd s (data m i i)) (upto n) zero.

(** The test of [is_symmetric] on one pair of cells. *)
Definition differ (m : Matrix) (i j : Z) : bool :=
  fgt (fabs (fsub (data m i j) (data m j i))) eps.

Definition is_zero (x : double) : bool :=
  match x with S754_zero _ => true | _ => false end.

(** What a sum that starts at [+0.0] keeps of a number: the number itself,
    except that [-0.0] has become [+0.0]. *)
Definition absorbed (x : double) : double :=
  match x with S754_zero _ => zero | _ => x end.

(** ** Sample values *)

(** Some content for the cells that a function leaves indeterminate. *)
Definition junk : cells := fun i j => double_of_int (100 + 10 * i + j).

Definition demo_A := matrix_of junk 3 3 [[1; 2; 3]; [4; 5; 6]; [7; 8; 9]].
Definition demo_B := matrix_of junk 3 3 [[9; 8; 7]; [6; 5; 4]; [3; 2; 1]].

Definition ints (vals : list (list Z)) : list (list double) :=
  map (map double_of_int) vals.

Definition map_outcome {A B : Type} (f : A -> B) (c : outcome A) : outcome B :=
  x <- c ;; Ok (f x).

(** [[1 2 3] [4 5 6] [7 8 9]], the matrix A of [main]; the cells of the backing
    array outside the shape follow the same formula. *)
Definition square_3x3 : Matrix := mkMatrix 3 3 (fun i j => double_of_int (3 * i + j + 1)).

(** The first two rows of the same table: [[1 2 3] [4 5 6]]. *)
Definition rect_2x3 : Matrix := mkMatrix 2 3 (fun i j => double_of_int (3 * i + j + 1)).

(** [[1 2] [3 4]]. *)
Definition square_2x2 : Matrix := mkMatrix 2 2 (fun i j => double_of_int (2 * i + j + 1)).

(** A 2 x 2 matrix with 2 on the diagonal and 5 elsewhere. *)
Definition symmetric_2x2 : Matrix :=
  mkMatrix 2 2 (fun i j => if i =? j then double_of_int 2 else double_of_int 5).

Definition infinity : double := S754_infinity false.

(** [[inf 0] [0 0]], obtained as a program would: created, then one entry
    assigned. *)
Definition with_infinity : outcome Matrix :=
  m <- create_matrix junk 2 2 ;; store m 0 0 infinity.

(** The 1 x 1 matrix [[inf]]. *)
Definition only_infinity : outcome Matrix :=
  m <- create_matrix junk 1 1 ;; store m 0 0 infinity.

(** The 1 x 1 matrix [[3]]. *)
Definition only_three : Matrix := mkMatrix 1 1 (fun _ _ => double_of_int 3).

(** 2^53, the first double after which not every integer is a double. *)
Definition two_53 : double := double_of_int 9007199254740992.

(** The literal [-1.0]. *)
Definition minus_one : double := Eval cbv in double_of_int (-1).



(** A matrix of the given shape whose logical entries are all [+0.0]. *)
Definition is_zero_matrix (r c : Z) (m : Matrix) : Prop :=
  rows m = r /\ cols m = c /\
  forall i j, 0 <= i < r -> 0 <= j < c -> data m i j = zero.

(** The cells of [r] outside its shape hold what the fresh, uninitialised
    local held: nothing was written there. *)
Definition untouched_outside (uninit : cells) (r : Matrix) : Prop :=
  forall i j, ~ (0 <= i < rows r /\ 0 <= j < cols r) -> data r i j = uninit i j.


(** A shape that [create_matrix] cannot fill without leaving the array: both
    dimensions are positive and one exceeds [MAX]. *)
Definition overruns (r c : Z) : Prop := 0 < r /\ 0 < c /\ (MAX < r \/ MAX < c).

(** What [print_matrix] prints for one row of entries, and for a matrix of a
    given shape and given rows of entries. *)
Definition printed_row (row : list double) : output :=
  [printf "  │" []] ++ map (fun x => printf " %7.2f" [ADouble x]) row
  ++ [printf (" │" ++ nl) []].

Definition printed (name : string) (r c : Z) (rws : list (list double)) : output :=
  printf (nl ++ "  %s (%dx%d):" ++ nl) [AStr name; AInt r; AInt c]
  :: List.concat (map printed_row rws).

(** The transcript of the demonstration run. *)
Definition transcript : output :=
  [printf ("==================================================" ++ nl) [];
   printf ("  📐 Matrix Operations" ++ nl) [];
   printf ("==================================================" ++ nl) []]
  ++ printed "Matrix A" 3 3 (ints [[1; 2; 3]; [4; 5; 6]; [7; 8; 9]])
  ++ printed "Matrix B" 3 3 (ints [[9; 8; 7]; [6; 5; 4]; [3; 2; 1]])
  ++ printed "A + B" 3 3 (ints [[10; 10; 10]; [10; 10; 10]; [10; 10; 10]])
  ++ printed "A - B" 3 3 (ints [[-8; -6; -4]; [-2; 0; 2]; [4; 6; 8]])
  ++ printed "A × B" 3 3 (ints [[30; 24; 18]; [84; 69; 54]; [138; 114; 90]])
  ++ printed "Transpose(A)" 3 3 (ints [[1; 4; 7]; [2; 5; 8]; [3; 6; 9]])
  ++ printed "2 × A" 3 3 (ints [[2; 4; 6]; [8; 10; 12]; [14; 16; 18]])
  ++ [printf (nl ++ "  📊 Properties of A:" ++ nl) [];
      printf ("    Trace:     %.2f" ++ nl) [ADouble (double_of_int 15)];
      printf ("    Symmetric: %s" ++ nl) [AStr "No ❌"]]
  ++ printed "2x2 Matrix" 2 2 (ints [[3; 8]; [4; 6]])
  ++ [printf ("    Determinant: %.2f" ++ nl) [ADouble (double_of_int (-14))]]
  ++ printed "Identity(3)" 3 3 (ints [[1; 0; 0]; [0; 1; 0]; [0; 0; 1]])
  ++ [printf (nl ++ "  👋 Done!" ++ nl) []].

(** * The key/value store of [projects/2026-02-15-c-stack-array/main.c]

<<
    #define MAX_ITEMS 100
    #define MAX_LEN 256
    typedef struct { char key[MAX_LEN]; char value[MAX_LEN]; } Item;
    typedef struct { Item items[MAX_ITEMS]; int count; char name[MAX_LEN]; } DataStore;
>>

    A [char] is an [ascii]; a [char] array is a table of characters indexed by
    ints, of which the indices in [[0, MAX_LEN)] exist.  A [const char *]
    argument is given as the characters it points to; the C string it denotes
    stops before the first NUL. *)

Module StackArray.

Definition MAX_ITEMS : Z := 100.
Definition MAX_LEN : Z := 256.

Definition chars : Type := Z -> ascii.

Definition NUL : ascii := Ascii.zero.

Definition is_nul (c : ascii) : bool := Ascii.eqb c NUL.

(** The C string that starts at a pointer: the characters before the first
    NUL. *)
Fixpoint until_nul (s : string) : string :=
  match s with
  | EmptyString => EmptyString
  | String c s' => if is_nul c then EmptyString else String c (until_nul s')
  end.

(** Character [i] of a string followed by NULs. *)
Definition char_of (s : string) (i : nat) : ascii :=
  match String.get i s with
  | Some c => c
  | None => NUL
  end.

(** [strncpy(dest, src, n)]: the first [n] characters of [dest] become the
    string [src], cut after [n] characters, or followed by NULs up to [n]
    characters when it is shorter.  No terminator is written when [src] has
    [n] characters or more. *)
Definition strncpy (dest : chars) (src : string) (n : Z) : chars :=
  fun i => if (0 <=? i) && (i <? n) then char_of (until_nul src) (Z.to_nat i) else dest i.

(** [a[i] = c]. *)
Definition set_char (a : chars) (i : Z) (c : ascii) : chars :=
  fun k => if k =? i then c else a k.

(** What [printf] prints for [%s] from a [char] array: the characters before
    the first NUL.  When the array holds no NUL the read runs past its end. *)
Fixpoint scan (a : chars) (i : Z) (fuel : nat) : outcome string :=
  match fuel with
  | O => Undefined
  | S fuel' =>
      if is_nul (a i) then Ok EmptyString
      else s <- scan a (i + 1) fuel' ;; Ok (String (a i) s)
  end.

Definition read_string (a : chars) : outcome string := scan a 0 (Z.to_nat MAX_LEN).

Record Item : Type := mkItem { key : chars; value : chars }.

Record DataStore : Type := mkStore { items : Z -> Item; count : Z; name : chars }.

Definition in_items (i : Z) : bool := (0 <=? i) && (i <? MAX_ITEMS).

(** [store->items[i]]. *)
Definition load_item (store : DataStore) (i : Z) : outcome Item :=
  if in_items i then Ok (items store i) else Undefined.

Definition set_item (its : Z -> Item) (i : Z) (it : Item) : Z -> Item :=
  fun k => if k =? i then it else its k.

Definition init_store (store : DataStore) (nm : string) : DataStore :=
  let store := mkStore (items store) 0 (name store) in
  let store := mkStore (items store) (count store)
                 (strncpy (name store) nm (MAX_LEN - 1)) in
  mkStore (items store) (count store) (set_char (name store) (MAX_LEN - 1) NUL).

(** The result is the store after the call, the value returned and the
    output. *)
Definition add_item (store : DataStore) (k v : string) (out : output)
  : outcome (DataStore * Z * output) :=
  if MAX_ITEMS <=? count store then
    Ok (store, -1, out ++ [printf ("❌ Store is full!" ++ nl) []])
  else
    it <- load_item store (count store) ;;
    let it := mkItem (strncpy (key it) k (MAX_LEN - 1)) (value it) in
    let it := mkItem (key it) (strncpy (value it) v (MAX_LEN - 1)) in
    let store := mkStore (set_item (items store) (count store) it)
                   (count store) (name store) in
    let store := mkStore (items store) (count store + 1) (name store) in
    Ok (store, 0,
        out ++ [printf ("✅ Added: %s = %s" ++ nl) [AStr (until_nul k); AStr (until_nul v)]]).

Definition list_items (store : DataStore) (out : output) : outcome output :=
  if count store =? 0 then
    Ok (out ++ [printf ("📭 No items yet." ++ nl) []])
  else
    let out := out ++ [printf (nl ++ "📋 Current items (%d):" ++ nl) [AInt (count store)]] in
    for_loop (count store) (fun i out =>
      it <- load_item store i ;;
      k <- read_string (key it) ;;
      v <- read_string (value it) ;;
      Ok (out ++ [printf ("   %s: %s" ++ nl) [AStr k; AStr v]])) out.

(** [main]; [garbage] is the indeterminate content of the local [store]. *)
Definition main (garbage : DataStore) : outcome (Z * output) :=
  let store := init_store garbage "Stack Array" in
  let out := [printf ("==================================================" ++ nl) []] in
  let out := out ++ [printf ("  Stack Array" ++ nl) []] in
  let out := out ++ [printf ("==================================================" ++ nl) []] in
  r <- add_item store "project" "Stack Array" out ;;
  let '(store, _, out) := r in
  r <- add_item store "language" "C" out ;;
  let '(store, _, out) := r in
  r <- add_item store "date" "2026-02-15" out ;;
  let '(store, _, out) := r in
  out <- list_items store out ;;
  let out := out ++ [printf (nl ++ "👋 Done!" ++ nl) []] in
  Ok (0, out).

(** *** Definitions used by the statements *)

(** Calls of [add_item] one after the other, with the values they return. *)
Fixpoint add_items (store : DataStore) (kvs : list (string * string)) (out : output)
  : outcome (DataStore * list Z * output) :=
  match kvs with
  | [] => Ok (store, [], out)
  | (k, v) :: kvs' =>
      r <- add_item store k v out ;;
      let '(store, code, out) := r in
      r' <- add_items store kvs' out ;;
      let '(store, codes, out) := r' in
      Ok (store, code :: codes, out)
  end.

(** The first [n] characters of a string. *)
Fixpoint take (n : nat) (s : string) : string :=
  match n, s with
  | S n', String c s' => String c (take n' s')
  | _, _ => EmptyString
  end.

(** A string with no NUL in it. *)
Fixpoint clean (s : string) : bool :=
  match s with
  | EmptyString => true
  | String c s' => negb (is_nul c) && clean s'
  end.

(** A C string that [strncpy] copies whole, terminator included. *)
Definition fits (s : string) : Prop :=
  Z.of_nat (String.length (until_nul s)) < MAX_LEN - 1.

(** The first [count] items of the store read as the given keys and values. *)
Definition holds (store : DataStore) (kvs : list (string * string)) : Prop :=
  count store = Z.of_nat (List.length kvs) /\
  forall i k v, nth_error kvs i = Some (k, v) ->
    read_string (key (items store (Z.of_nat i))) = Ok k /\
    read_string (value (items store (Z.of_nat i))) = Ok v.

(** What [list_items] prints for the given keys and values. *)
Definition listing (kvs : list (string * string)) : output :=
  match kvs with
  | [] => [printf ("📭 No items yet." ++ nl) []]
  | _ =>
      printf (nl ++ "📋 Current items (%d):" ++ nl) [AInt (Z.of_nat (List.length kvs))]
      :: map (fun kv => printf ("   %s: %s" ++ nl) [AStr (fst kv); AStr (snd kv)]) kvs
  end.

Definition c_strings (kvs : list (string * string)) : list (string * string) :=
  map (fun kv => (until_nul (fst kv), until_nul (snd kv))) kvs.

End StackArray.

(** * Properties *)

(** ** Constants and invariants *)

(** [eps] is within half a unit in the last place of 10^-9:
    [|m * 2^-82 - 10^-9| <= 2^-83], cleared of denominators. *)
Lemma eps_nearest_to_1e_9 :
  exists m, eps = S754_finite false m (-82) /\
    2 * Z.abs (Zpos m * 10 ^ 9 - 2 ^ 82) <= 10 ^ 9.
Proof. eexists. split; [reflexivity|]. vm_compute. discriminate. Qed.

Lemma valid_within_capacity m : valid m -> within_capacity m.
Proof. unfold valid, within_capacity. lia. Qed.

(** Asking for more rows than the array has makes [create_matrix] write to
    [data[MAX][0]], outside the array. *)
Example create_matrix_overrun : create_matrix junk (MAX + 1) 1 = Undefined.
Proof. vm_compute. reflexivity. Qed.

(** ** Loops *)

Lemma upto_nonpos n : n <= 0 -> upto n = [].
Proof.
  intros H. unfold upto. replace (Z.to_nat n) with O by lia. reflexivity.
Qed.

Lemma upto_succ n : 0 <= n -> upto (n + 1) = upto n ++ [n].
Proof.
  intros H. unfold upto.
  replace (Z.to_nat (n + 1)) with (S (Z.to_nat n)) by lia.
  rewrite seq_S, map_app. simpl. now rewrite Z2Nat.id.
Qed.

Lemma in_upto i n : In i (upto n) <-> 0 <= i < n.
Proof.
  unfold upto. rewrite in_map_iff. split.
  - intros (k & <- & Hk). apply in_seq in Hk. lia.
  - intros H. exists (Z.to_nat i). split; [lia|]. apply in_seq. lia.
Qed.

Lemma for_each_app {S : Type} (l1 l2 : list Z) (body : Z -> S -> outcome S) s :
  for_each (l1 ++ l2) body s = s' <- for_each l1 body s ;; for_each l2 body s'.
Proof.
  revert s. induction l1 as [|i l1 IH]; intros s; simpl; [reflexivity|].
  destruct (body i s); simpl; auto.
Qed.

(** The rule of the [for] loop, for total correctness: an invariant that holds
    before the first iteration and that every iteration re-establishes without
    leaving the array holds when the loop ends, and the loop does end. *)
Lemma for_loop_rule {S : Type} (P : Z -> S -> Prop) n (body : Z -> S -> outcome S) s :
  P 0 s ->
  (forall i t, 0 <= i < n -> P i t -> exists t', body i t = Ok t' /\ P (i + 1) t') ->
  exists s', for_loop n body s = Ok s' /\ P (Z.max 0 n) s'.
Proof.
  intros H0 Hstep. destruct (Z.le_gt_cases n 0) as [Hn|Hn].
  - exists s. unfold for_loop. rewrite upto_nonpos by assumption.
    replace (Z.max 0 n) with 0 by lia. auto.
  - replace (Z.max 0 n) with n by lia.
    assert (G : forall k, 0 <= k -> k <= n ->
                exists s', for_loop k body s = Ok s' /\ P k s').
    { intros k Hk. pattern k. apply natlike_ind; [| |assumption].
      - intros _. exists s. split; [reflexivity|assumption].
      - intros x Hx IH Hle. destruct IH as (s1 & E1 & P1); [lia|].
        destruct (Hstep x s1) as (s2 & E2 & P2); [lia|assumption|].
        exists s2. split; [|assumption].
        unfold for_loop in *. unfold Z.succ.
        rewrite upto_succ, for_each_app, E1 by assumption.
        simpl. now rewrite E2. }
    apply G; lia.
Qed.

Lemma for_each_ret_test {R : Type} (l : list Z) (body : Z -> outcome (option R))
      (t : Z -> bool) (v : R) :
  (forall i, In i l -> body i = Ok (if t i then Some v else None)) ->
  for_each_ret l body = Ok (if existsb t l then Some v else None).
Proof.
  induction l as [|i l IH]; intros H; simpl; [reflexivity|].
  rewrite (H i) by (left; reflexivity). simpl.
  destruct (t i); simpl; [reflexivity|].
  apply IH. intros k Hk. apply H. now right.
Qed.

(** ** Cells *)

Lemma in_array_true i j : 0 <= i < MAX -> 0 <= j < MAX -> in_array i j = true.
Proof. unfold in_array. intros. repeat (apply andb_true_intro; split); lia. Qed.

Lemma load_ok m i j : 0 <= i < MAX -> 0 <= j < MAX -> load m i j = Ok (data m i j).
Proof. intros. unfold load. now rewrite in_array_true. Qed.

Lemma store_ok m i j v :
  0 <= i < MAX -> 0 <= j < MAX ->
  store m i j v = Ok (mkMatrix (rows m) (cols m) (update (data m) i j v)).
Proof. intros. unfold store. now rewrite in_array_true. Qed.

Lemma update_same d i j v : update d i j v i j = v.
Proof. unfold update. now rewrite !Z.eqb_refl. Qed.

Lemma update_other d i j v i' j' : (i', j') <> (i, j) -> update d i j v i' j' = d i' j'.
Proof.
  intros H. unfold update.
  destruct (Z.eqb_spec i' i), (Z.eqb_spec j' j); simpl; try reflexivity.
  subst. now contradiction H.
Qed.

Lemma inside_true R C i j : inside R C i j = true <-> 0 <= i < R /\ 0 <= j < C.
Proof. unfold inside. rewrite !andb_true_iff. lia. Qed.

Lemma inside_false R C i j : inside R C i j = false <-> ~ (0 <= i < R /\ 0 <= j < C).
Proof. rewrite <- inside_true. destruct (inside R C i j); intuition congruence. Qed.

(** ** Two nested loops that visit every cell of a shape once *)

Ltac bool_cases :=
  repeat match goal with
    | |- context [Z.eqb ?x ?y] => destruct (Z.eqb_spec x y)
    | |- context [Z.leb ?x ?y] => destruct (Z.leb_spec x y)
    | |- context [Z.ltb ?x ?y] => destruct (Z.ltb_spec x y)
    end; simpl; try reflexivity; try lia.

Section CellLoops.

Variables (R C : Z) (sw : bool).
Variable g : Z -> Z -> double -> double.
Variable body : Z -> Z -> Matrix -> outcome Matrix.

(** What one iteration does: it replaces the content [v] of its target cell
    by [g i j v] and touches nothing else. *)
Hypothesis body_spec : forall i j r,
  0 <= i < R -> 0 <= j < C ->
  exists r', body i j r = Ok r' /\ rows r' = rows r /\ cols r' = cols r /\
    forall i' j', data r' i' j' =
      if (i' =? fst (target sw i j)) && (j' =? snd (target sw i j))
      then g i j (data r (fst (target sw i j)) (snd (target sw i j)))
      else data r i' j'.

Lemma row_loop r0 i r :
  0 <= i < R -> after C sw g r0 i 0 r ->
  exists r', for_loop C (fun j r => body i j r) r = Ok r' /\ after C sw g r0 (i + 1) 0 r'.
Proof.
  intros Hi Hr.
  destruct (for_loop_rule (fun j t => after C sw g r0 i j t) C (fun j r => body i j r) r)
    as (r' & E & (Hrows & Hcols & Hd)); [assumption| |].
  - intros j t Hj (Hrows & Hcols & Hd).
    destruct (body_spec i j t Hi Hj) as (t' & E & Hrows' & Hcols' & Hd').
    exists t'. split; [assumption|]. split; [congruence|]. split; [congruence|].
    intros i' j'. rewrite Hd', !Hd. unfold visited, target, inside.
    destruct sw; simpl; bool_cases; subst; bool_cases.
  - exists r'. split; [assumption|]. split; [assumption|]. split; [assumption|].
    intros i' j'. rewrite Hd. unfold visited, target, inside.
    destruct sw; simpl; bool_cases.
Qed.

Lemma cell_loops r0 :
  exists r, for_loop R (fun i r => for_loop C (fun j r => body i j r) r) r0 = Ok r /\
    rows r = rows r0 /\ cols r = cols r0 /\
    forall i' j', data r i' j' =
      if inside R C (fst (target sw i' j')) (snd (target sw i' j'))
      then g (fst (target sw i' j')) (snd (target sw i' j')) (data r0 i' j')
      else data r0 i' j'.
Proof.
  destruct (for_loop_rule (fun i t => after C sw g r0 i 0 t) R
              (fun i r => for_loop C (fun j r => body i j r) r) r0)
    as (r & E & (Hrows & Hcols & Hd)).
  - split; [reflexivity|]. split; [reflexivity|].
    intros i' j'. unfold visited, target, inside. destruct sw; simpl; bool_cases.
  - intros i t Hi Ht. now apply row_loop.
  - exists r. split; [assumption|]. split; [assumption|]. split; [assumption|].
    intros i' j'. rewrite Hd. unfold visited, target, inside.
    destruct sw; simpl; bool_cases.
Qed.

End CellLoops.

(** ** What each function computes *)

Ltac cell_step :=
  intros;
  repeat (rewrite load_ok by (unfold MAX in *; lia); simpl);
  rewrite store_ok by (unfold MAX in *; lia);
  eexists; split; [reflexivity|]; split; [reflexivity|]; split; [reflexivity|];
  intros; reflexivity.

Lemma create_matrix_spec uninit r c :
  r <= MAX -> c <= MAX ->
  exists m, create_matrix uninit r c = Ok m /\ rows m = r /\ cols m = c /\
    forall i j, data m i j = if inside r c i j then zero else uninit i j.
Proof.
  intros Hr Hc.
  destruct (cell_loops r c false (fun _ _ _ => zero)
              (fun i j m => store m i j (double_of_int 0))) with
    (r0 := mkMatrix r c uninit) as (m & E & Hrows & Hcols & Hd).
  - cell_step.
  - exists m. split; [exact E|]. split; [assumption|]. split; [assumption|].
    intros i j. apply Hd.
Qed.

Section Elementwise.

(** [add], [subtract] and [scalar_multiply] are one loop nest around
    different cell computations. *)
Variable a : Matrix.
Variable f : Z -> Z -> double.
Variable uninit : cells.
Variable body : Z -> Z -> Matrix -> outcome Matrix.

Hypothesis capacity : within_capacity a.
Hypothesis body_eq : forall i j r,
  0 <= i < rows a -> 0 <= j < cols a -> body i j r = store r i j (f i j).

Lemma elementwise_spec :
  exists r,
    (result <- create_matrix uninit (rows a) (cols a) ;;
     for_loop (rows a) (fun i result =>
       for_loop (cols a) (fun j result => body i j result) result) result) = Ok r /\
    rows r = rows a /\ cols r = cols a /\
    forall i j, data r i j = if inside (rows a) (cols a) i j then f i j else uninit i j.
Proof.
  destruct capacity as [Hr Hc].
  destruct (create_matrix_spec uninit (rows a) (cols a) Hr Hc)
    as (r0 & E0 & Hrows0 & Hcols0 & Hd0).
  destruct (cell_loops (rows a) (cols a) false (fun i j _ => f i j) body) with (r0 := r0)
    as (r & E & Hrows & Hcols & Hd).
  - intros i j t Hi Hj. rewrite body_eq by assumption. cell_step.
  - exists r. rewrite E0. simpl. split; [exact E|].
    split; [congruence|]. split; [congruence|].
    intros i j. rewrite Hd, Hd0. simpl. now destruct (inside (rows a) (cols a) i j).
Qed.

End Elementwise.

Lemma add_spec uninit a b :
  within_capacity a ->
  exists r, add uninit a b = Ok r /\ rows r = rows a /\ cols r = cols a /\
    forall i j, data r i j =
      if inside (rows a) (cols a) i j then fadd (data a i j) (data b i j) else uninit i j.
Proof.
  intros H.
  apply (elementwise_spec a (fun i j => fadd (data a i j) (data b i j)) uninit
           (fun i j result => x <- load a i j ;; y <- load b i j ;; store result i j (fadd x y)) H).
  intros i j r Hi Hj. destruct H. rewrite !load_ok by lia. reflexivity.
Qed.

Lemma subtract_spec uninit a b :
  within_capacity a ->
  exists r, subtract uninit a b = Ok r /\ rows r = rows a /\ cols r = cols a /\
    forall i j, data r i j =
      if inside (rows a) (cols a) i j then fsub (data a i j) (data b i j) else uninit i j.
Proof.
  intros H.
  apply (elementwise_spec a (fun i j => fsub (data a i j) (data b i j)) uninit
           (fun i j result => x <- load a i j ;; y <- load b i j ;; store result i j (fsub x y)) H).
  intros i j r Hi Hj. destruct H. rewrite !load_ok by lia. reflexivity.
Qed.

Lemma scalar_multiply_spec uninit m k :
  within_capacity m ->
  exists r, scalar_multiply uninit m k = Ok r /\ rows r = rows m /\ cols r = cols m /\
    forall i j, data r i j =
      if inside (rows m) (cols m) i j then fmul (data m i j) k else uninit i j.
Proof.
  intros H.
  apply (elementwise_spec m (fun i j => fmul (data m i j) k) uninit
           (fun i j result => x <- load m i j ;; store result i j (fmul x k)) H).
  intros i j r Hi Hj. destruct H. rewrite !load_ok by lia. reflexivity.
Qed.

Lemma transpose_spec uninit m :
  within_capacity m ->
  exists r, transpose uninit m = Ok r /\ rows r = cols m /\ cols r = rows m /\
    forall i j, data r i j =
      if inside (cols m) (rows m) i j then data m j i else uninit i j.
Proof.
  intros [Hr Hc].
  destruct (create_matrix_spec uninit (cols m) (rows m) Hc Hr)
    as (r0 & E0 & Hrows0 & Hcols0 & Hd0).
  destruct (cell_loops (rows m) (cols m) true (fun i j _ => data m i j)
              (fun i j result => x <- load m i j ;; store result j i x)) with (r0 := r0)
    as (r & E & Hrows & Hcols & Hd).
  - cell_step.
  - exists r. unfold transpose. rewrite E0. simpl. split; [exact E|].
    split; [congruence|]. split; [congruence|].
    intros i j. rewrite Hd, Hd0. simpl. unfold inside. bool_cases.
Qed.

Lemma dot_succ a b i j n acc :
  0 <= n ->
  dot a b i j (n + 1) acc = fadd (dot a b i j n acc) (fmul (data a i n) (data b n j)).
Proof.
  intros H. unfold dot. rewrite upto_succ by assumption.
  rewrite fold_left_app. reflexivity.
Qed.

Lemma multiply_cell a b i j r :
  0 <= i < MAX -> 0 <= j < MAX -> cols a <= MAX ->
  exists r',
    for_loop (cols a) (fun k result =>
      x <- load a i k ;;
      y <- load b k j ;;
      c <- load result i j ;;
      store result i j (fadd c (fmul x y))) r = Ok r' /\
    rows r' = rows r /\ cols r' = cols r /\
    forall i' j', data r' i' j' =
      if (i' =? i) && (j' =? j) then dot a b i j (cols a) (data r i j) else data r i' j'.
Proof.
  intros Hi Hj Hk.
  assert (D0 : forall n, n <= 0 -> forall acc, dot a b i j n acc = acc).
  { intros n Hn acc. unfold dot. now rewrite upto_nonpos. }
  match goal with |- exists r', for_loop _ ?body _ = _ /\ _ =>
    destruct (for_loop_rule (fun k t =>
      rows t = rows r /\ cols t = cols r /\
      forall i' j', data t i' j' =
        if (i' =? i) && (j' =? j) then dot a b i j k (data r i j) else data r i' j')
      (cols a) body r) as (r' & E & Hrows & Hcols & Hd)
  end.
  - split; [reflexivity|]. split; [reflexivity|].
    intros i' j'. rewrite D0 by lia. bool_cases; subst; reflexivity.
  - intros k t Hkr (Hrows & Hcols & Hd). cbv beta.
    rewrite !load_ok by lia. simpl. rewrite store_ok by lia.
    eexists. split; [reflexivity|]. simpl. split; [assumption|]. split; [assumption|].
    intros i' j'. unfold update. rewrite (Hd i j), (Hd i' j'), !Z.eqb_refl. simpl.
    rewrite dot_succ by lia. now destruct ((i' =? i) && (j' =? j)).
  - exists r'. split; [assumption|]. split; [assumption|]. split; [assumption|].
    intros i' j'. rewrite Hd.
    destruct (Z.le_gt_cases (cols a) 0) as [Hn|Hn].
    + rewrite !D0 by lia. reflexivity.
    + replace (Z.max 0 (cols a)) with (cols a) by lia. reflexivity.
Qed.

Lemma multiply_spec uninit a b :
  within_capacity a -> cols b <= MAX ->
  exists r, multiply uninit a b = Ok r /\ rows r = rows a /\ cols r = cols b /\
    forall i j, data r i j =
      if inside (rows a) (cols b) i j then dot a b i j (cols a) zero else uninit i j.
Proof.
  intros [Hr Hc] Hb.
  destruct (create_matrix_spec uninit (rows a) (cols b) Hr Hb)
    as (r0 & E0 & Hrows0 & Hcols0 & Hd0).
  destruct (cell_loops (rows a) (cols b) false
              (fun i j v => dot a b i j (cols a) v)
              (fun i j result =>
                 for_loop (cols a) (fun k result =>
                   x <- load a i k ;;
                   y <- load b k j ;;
                   c <- load result i j ;;
                   store result i j (fadd c (fmul x y))) result)) with (r0 := r0)
    as (r & E & Hrows & Hcols & Hd).
  - intros i j t Hi Hj. simpl. apply multiply_cell; lia.
  - exists r. unfold multiply. rewrite E0. simpl. split; [exact E|].
    split; [congruence|]. split; [congruence|].
    intros i j. rewrite Hd, Hd0. simpl. now destruct (inside (rows a) (cols b) i j).
Qed.

Lemma identity_spec uninit n :
  n <= MAX ->
  exists m, identity uninit n = Ok m /\ rows m = n /\ cols m = n /\
    forall i j, data m i j =
      if inside n n i j then (if i =? j then one else zero) else uninit i j.
Proof.
  intros Hn.
  destruct (create_matrix_spec uninit n n Hn Hn) as (m0 & E0 & Hrows0 & Hcols0 & Hd0).
  destruct (for_loop_rule (fun k t =>
      rows t = n /\ cols t = n /\
      forall i j, data t i j =
        if inside n n i j then (if (i =? j) && (i <? k) then one else zero) else uninit i j)
      n (fun i m => store m i i one) m0) as (m & E & Hrows & Hcols & Hd).
  - split; [assumption|]. split; [assumption|].
    intros i j. rewrite Hd0. unfold inside. bool_cases.
  - intros k t Hk (Hrows & Hcols & Hd). rewrite store_ok by lia.
    eexists. split; [reflexivity|]. simpl. split; [assumption|]. split; [assumption|].
    intros i j. unfold update. rewrite Hd. unfold inside. bool_cases.
  - exists m. unfold identity. rewrite E0. simpl. split; [exact E|].
    split; [assumption|]. split; [assumption|].
    intros i j. rewrite Hd. unfold inside. bool_cases.
Qed.

Lemma trace_spec m :
  Z.min (rows m) (cols m) <= MAX ->
  trace m = Ok (diag_sum m (Z.min (rows m) (cols m))).
Proof.
  intros H. unfold trace.
  replace (if rows m <? cols m then rows m else cols m) with (Z.min (rows m) (cols m))
    by (destruct (Z.ltb_spec (rows m) (cols m)); lia).
  set (n := Z.min (rows m) (cols m)) in *.
  destruct (for_loop_rule (fun k s => s = diag_sum m k) n
              (fun i sum => x <- load m i i ;; Ok (fadd sum x)) (double_of_int 0))
    as (s & E & Hs).
  - reflexivity.
  - intros i t Hi ->. rewrite load_ok by lia. simpl.
    eexists. split; [reflexivity|].
    unfold diag_sum. rewrite upto_succ by lia. now rewrite fold_left_app.
  - rewrite E, Hs. f_equal. unfold diag_sum.
    destruct (Z.le_gt_cases n 0) as [Hn|Hn].
    + now rewrite !upto_nonpos by lia.
    + now replace (Z.max 0 n) with n by lia.
Qed.

Lemma is_symmetric_not_square m :
  rows m <> cols m -> is_symmetric m = Ok 0.
Proof.
  intros H. unfold is_symmetric.
  destruct (Z.eqb_spec (rows m) (cols m)); [contradiction|reflexivity].
Qed.

Lemma is_symmetric_square m :
  rows m = cols m -> rows m <= MAX ->
  is_symmetric m =
  Ok (if existsb (fun i => existsb (fun j => differ m i j) (upto (cols m))) (upto (rows m))
      then 0 else 1).
Proof.
  intros Hsq Hcap. unfold is_symmetric. rewrite Hsq, Z.eqb_refl. simpl.
  unfold for_loop_ret.
  rewrite (for_each_ret_test (upto (cols m)) _
             (fun i => existsb (fun j => differ m i j) (upto (cols m))) 0).
  - simpl. now destruct (existsb _ _).
  - intros i Hi. apply in_upto in Hi.
    apply for_each_ret_test. intros j Hj. apply in_upto in Hj.
    rewrite !load_ok by lia. simpl. unfold differ.
    now destruct (fgt _ _).
Qed.

Lemma determinant_2x2_spec m :
  determinant_2x2 m =
  Ok (fsub (fmul (data m 0 0) (data m 1 1)) (fmul (data m 0 1) (data m 1 0))).
Proof. reflexivity. Qed.

(** ** The demonstration run of [main] *)

Example demo_sum :
  map_outcome entries (a <- demo_A ;; b <- demo_B ;; add junk a b)
  = Ok (ints [[10; 10; 10]; [10; 10; 10]; [10; 10; 10]]).
Proof. vm_compute. reflexivity. Qed.

Example demo_diff :
  map_outcome entries (a <- demo_A ;; b <- demo_B ;; subtract junk a b)
  = Ok (ints [[-8; -6; -4]; [-2; 0; 2]; [4; 6; 8]]).
Proof. vm_compute. reflexivity. Qed.

Example demo_prod :
  map_outcome entries (a <- demo_A ;; b <- demo_B ;; multiply junk a b)
  = Ok (ints [[30; 24; 18]; [84; 69; 54]; [138; 114; 90]]).
Proof. vm_compute. reflexivity. Qed.

Example demo_trans :
  map_outcome entries (a <- demo_A ;; transpose junk a)
  = Ok (ints [[1; 4; 7]; [2; 5; 8]; [3; 6; 9]]).
Proof. vm_compute. reflexivity. Qed.

Example demo_scaled :
  map_outcome entries (a <- demo_A ;; scalar_multiply junk a (double_of_int 2))
  = Ok (ints [[2; 4; 6]; [8; 10; 12]; [14; 16; 18]]).
Proof. vm_compute. reflexivity. Qed.

Example demo_trace : (a <- demo_A ;; trace a) = Ok (double_of_int 15).
Proof. vm_compute. reflexivity. Qed.

Example demo_symmetric : (a <- demo_A ;; is_symmetric a) = Ok 0.
Proof. vm_compute. reflexivity. Qed.

Example demo_determinant :
  (small <- matrix_of junk 2 2 [[3; 8]; [4; 6]] ;; determinant_2x2 small)
  = Ok (double_of_int (-14)).
Proof. vm_compute. reflexivity. Qed.

Example demo_identity :
  map_outcome entries (identity junk 3) = Ok (ints [[1; 0; 0]; [0; 1; 0]; [0; 0; 1]]).
Proof. vm_compute. reflexivity. Qed.

(** ** Binary64 arithmetic on numbers *)

(** The only rounding that multiplying by [1.0] has to do is to shift the
    product's mantissa back by the 52 bits that the mantissa of [1.0] added. *)
Lemma mantissa_of_one_times (m : positive) :
  (4503599627370496 * m)%positive =
  (m~0~0~0~0~0~0~0~0~0~0~0~0~0~0~0~0~0~0~0~0~0~0~0~0~0~0
    ~0~0~0~0~0~0~0~0~0~0~0~0~0~0~0~0~0~0~0~0~0~0~0~0~0~0)%positive.
Proof. reflexivity. Qed.

Lemma round_after_one s m e :
  bounded prec emax m e = true ->
  binary_round_aux prec emax s (Zpos (4503599627370496 * m)) (e + -52) loc_Exact
  = S754_finite s m e.
Proof.
  intros Hb. unfold bounded, canonical_mantissa in Hb.
  apply andb_true_iff in Hb. destruct Hb as [Hc He].
  apply Z.eqb_eq in Hc.
  rewrite mantissa_of_one_times.
  unfold binary_round_aux, shr_fexp.
  match goal with |- context [Zdigits2 (Zpos ?p) + (e + -52)] =>
    assert (D : Zdigits2 (Zpos p) + (e + -52) = Zpos (digits2_pos m) + e)
      by (cbn [Zdigits2 digits2_pos]; rewrite !Pos2Z.inj_succ; lia);
    rewrite D, Hc
  end.
  replace (e - (e + -52)) with 52 by lia.
  cbn [shr shr_record_of_loc iter_pos shr_1 orb shr_m shr_r shr_s
       loc_of_shr_record round_nearest_even].
  replace (e + -52 + 52) with e by lia.
  cbn [Zdigits2]. rewrite Hc, Z.sub_diag.
  cbn [shr shr_record_of_loc shr_m]. now rewrite He.
Qed.

Lemma fmul_one_r x : is_finite x = true -> fmul x one = x.
Proof.
  destruct x as [s|s| |s m e]; intros H; try discriminate H.
  - now destruct s.
  - unfold fmul, one, SFmul. rewrite Pos.mul_comm, xorb_false_r.
    now apply round_after_one.
Qed.

Lemma fmul_one_l x : is_finite x = true -> fmul one x = x.
Proof.
  destruct x as [s|s| |s m e]; intros H; try discriminate H.
  - now destruct s.
  - unfold fmul, one, SFmul. rewrite xorb_false_l, (Z.add_comm (-52) e).
    now apply round_after_one.
Qed.

Lemma fmul_zero_r x : is_finite x = true -> is_zero (fmul x zero) = true.
Proof. destruct x; simpl; intros H; try discriminate; reflexivity. Qed.

Lemma fmul_zero_l x : is_finite x = true -> is_zero (fmul zero x) = true.
Proof. destruct x; simpl; intros H; try discriminate; reflexivity. Qed.

Lemma fadd_zero_zero z : is_zero z = true -> fadd zero z = zero.
Proof. destruct z as [[]| | |]; simpl; intros H; try discriminate; reflexivity. Qed.

Lemma fadd_zero_number x : is_finite x = true -> fadd zero x = absorbed x.
Proof. destruct x as [[]| | |]; simpl; intros H; try discriminate; reflexivity. Qed.

Lemma fadd_absorbed_zero x z :
  is_finite x = true -> is_zero z = true -> fadd (absorbed x) z = absorbed x.
Proof.
  destruct x as [[]| | |], z as [[]| | |]; simpl; intros Hx Hz;
    try discriminate; reflexivity.
Qed.

Lemma feq_absorbed x : is_finite x = true -> feq (absorbed x) x = true.
Proof.
  destruct x as [[]| | |[] m e]; simpl; intros H; try discriminate;
    try reflexivity; unfold feq, SFeqb; simpl;
    rewrite Z.compare_refl, Pos.compare_cont_refl; reflexivity.
Qed.

(** Rounding a non-negative mantissa never produces a NaN. *)
Lemma shr_1_nonneg mrs : 0 <= shr_m mrs -> 0 <= shr_m (shr_1 mrs).
Proof. destruct mrs as [[|[p|p|]|p] r s]; simpl; lia. Qed.

Lemma iter_shr_1_nonneg p : forall mrs,
  0 <= shr_m mrs -> 0 <= shr_m (iter_pos shr_1 p mrs).
Proof.
  induction p as [p IH|p IH|]; intros mrs H; simpl.
  - apply IH, IH, shr_1_nonneg, H.
  - apply IH, IH, H.
  - apply shr_1_nonneg, H.
Qed.

Lemma shr_fexp_nonneg m e l :
  0 <= m -> 0 <= shr_m (fst (shr_fexp prec emax m e l)).
Proof.
  intros H. unfold shr_fexp, shr.
  assert (H0 : 0 <= shr_m (shr_record_of_loc m l)) by (destruct l as [|[]]; exact H).
  destruct (fexp prec emax (Zdigits2 m + e) - e); simpl; try exact H0.
  now apply iter_shr_1_nonneg.
Qed.

Lemma binary_round_aux_not_nan s m e l :
  0 <= m -> binary_round_aux prec emax s m e l <> S754_nan.
Proof.
  intros H. unfold binary_round_aux.
  pose proof (shr_fexp_nonneg m e l H) as H1.
  destruct (shr_fexp prec emax m e l) as [mrs1 e1]. simpl in H1.
  assert (H2 : 0 <= round_nearest_even (shr_m mrs1) (loc_of_shr_record mrs1)).
  { unfold round_nearest_even.
    destruct (loc_of_shr_record mrs1) as [|[]]; try lia.
    destruct (Z.even (shr_m mrs1)); lia. }
  pose proof (shr_fexp_nonneg _ e1 loc_Exact H2) as H3.
  destruct (shr_fexp prec emax _ e1 loc_Exact) as [mrs2 e2]. simpl in H3.
  destruct (shr_m mrs2); try lia; try discriminate.
  destruct (e2 <=? emax - prec); discriminate.
Qed.

Lemma binary_normalize_not_nan m e sz :
  binary_normalize prec emax m e sz <> S754_nan.
Proof.
  unfold binary_normalize, binary_round.
  destruct m as [|p|p]; try discriminate;
    destruct (shl_align p e _) as [mz ez]; apply binary_round_aux_not_nan; lia.
Qed.

Lemma fsub_numbers_not_nan x y :
  is_finite x = true -> is_finite y = true -> fsub x y <> S754_nan.
Proof.
  destruct x as [[]| | |sx mx ex], y as [[]| | |sy my ey]; simpl; intros Hx Hy;
    try discriminate; apply binary_normalize_not_nan.
Qed.

(** Comparisons: away from NaN, [x > y] is the negation of [x <= y]. *)
Lemma SFcompare_antisym x y :
  SFcompare y x = option_map CompOpp (SFcompare x y).
Proof.
  destruct x as [[]|[]| |[] mx ex], y as [[]|[]| |[] my ey]; simpl; try reflexivity;
    rewrite (Z.compare_antisym ex ey); destruct (ex ?= ey); simpl; try reflexivity;
    pose proof (Pos.compare_cont_antisym mx my Eq) as A; simpl in A;
    rewrite <- A; now rewrite ?CompOpp_involutive.
Qed.

Lemma fgt_not_fle x y :
  x <> S754_nan -> y <> S754_nan -> fgt x y = negb (fle x y).
Proof.
  intros Hx Hy. unfold fgt, fle, SFltb, SFleb. rewrite (SFcompare_antisym x y).
  destruct (SFcompare x y) as [[]|] eqn:E; try reflexivity.
  destruct x, y; simpl in E; try discriminate; congruence.
Qed.

Lemma fabs_not_nan x : x <> S754_nan -> fabs x <> S754_nan.
Proof. destruct x; simpl; congruence. Qed.

(** * The claims *)

(** C1 (counterexample).  [multiply] on a 2 x 3 and a 2 x 3 matrix does not
    fail: it hands back a 2 x 3 matrix, whose entries were computed with the
    third row of the second operand's backing array. *)
Lemma multiply_accepts_mismatch :
  cols rect_2x3 <> rows rect_2x3 /\
  ~ fails (multiply junk rect_2x3 rect_2x3) /\
  map_outcome entries (multiply junk rect_2x3 rect_2x3)
  = Ok (ints [[30; 36; 42]; [66; 81; 96]]).
Proof.
  split; [discriminate|]. split.
  - destruct (multiply_spec junk rect_2x3 rect_2x3) as (r & E & _).
    + split; discriminate.
    + discriminate.
    + intros F. exact (F r E).
  - vm_compute. reflexivity.
Qed.

(** C1 (amended).  [multiply] checks no shape and reports no error.  For every
    [a] that its array can hold and every [b] with at most [MAX] columns,
    whether or not [a.cols == b.rows], it returns a matrix of shape
    [a.rows x b.cols] whose entry [(i, j)] is the sum of [a[i][k] * b[k][j]]
    for [k] in [[0, a.cols)], accumulated from [0.0] with [k] going up. *)
Theorem multiply_entries uninit a b :
  within_capacity a -> cols b <= MAX ->
  exists r, multiply uninit a b = Ok r /\ rows r = rows a /\ cols r = cols b /\
    forall i j, 0 <= i < rows a -> 0 <= j < cols b ->
      data r i j =
      fold_left (fun s k => fadd s (fmul (data a i k) (data b k j))) (upto (cols a)) zero.
Proof.
  intros Ha Hb.
  destruct (multiply_spec uninit a b Ha Hb) as (r & E & Hrows & Hcols & Hd).
  exists r. split; [assumption|]. split; [assumption|]. split; [assumption|].
  intros i j Hi Hj. rewrite Hd.
  replace (inside (rows a) (cols b) i j) with true; [reflexivity|].
  symmetry. apply inside_true. lia.
Qed.

Lemma multiply_entries_witness :
  exists r, multiply junk square_3x3 rect_2x3 = Ok r /\ rows r = 3 /\ cols r = 3 /\
    forall i j, 0 <= i < 3 -> 0 <= j < 3 ->
      data r i j =
      fold_left (fun s k => fadd s (fmul (data square_3x3 i k) (data rect_2x3 k j)))
        (upto 3) zero.
Proof.
  apply (multiply_entries junk square_3x3 rect_2x3).
  - unfold within_capacity, MAX. simpl. lia.
  - unfold MAX. simpl. lia.
Defined.

(** C2 (counterexample).  [add] and [subtract] on a 3 x 3 and a 2 x 2 matrix
    do not fail: each hands back a 3 x 3 matrix. *)
Lemma add_accepts_mismatch :
  rows square_3x3 <> rows square_2x2 /\
  ~ fails (add junk square_3x3 square_2x2) /\
  ~ fails (subtract junk square_3x3 square_2x2) /\
  map_outcome entries (add junk square_3x3 square_2x2)
  = Ok (ints [[2; 4; 6]; [7; 9; 11]; [12; 14; 16]]).
Proof.
  split; [discriminate|]. split; [|split].
  - destruct (add_spec junk square_3x3 square_2x2) as (r & E & _).
    + split; discriminate.
    + intros F. exact (F r E).
  - destruct (subtract_spec junk square_3x3 square_2x2) as (r & E & _).
    + split; discriminate.
    + intros F. exact (F r E).
  - vm_compute. reflexivity.
Qed.

(** C2 (amended).  [add] and [subtract] check no shape and report no error.
    For every [a] that its array can hold and every [b], they return a matrix
    of the shape of [a] whose entry [(i, j)] is [a[i][j] + b[i][j]]
    (respectively [a[i][j] - b[i][j]]); when the shapes are equal these are
    the elementwise sum and difference. *)
Theorem add_subtract_entries uninit a b :
  within_capacity a ->
  (exists r, add uninit a b = Ok r /\ rows r = rows a /\ cols r = cols a /\
     forall i j, 0 <= i < rows a -> 0 <= j < cols a ->
       data r i j = fadd (data a i j) (data b i j)) /\
  (exists r, subtract uninit a b = Ok r /\ rows r = rows a /\ cols r = cols a /\
     forall i j, 0 <= i < rows a -> 0 <= j < cols a ->
       data r i j = fsub (data a i j) (data b i j)).
Proof.
  intros Ha. split.
  - destruct (add_spec uninit a b Ha) as (r & E & Hrows & Hcols & Hd).
    exists r. split; [assumption|]. split; [assumption|]. split; [assumption|].
    intros i j Hi Hj. rewrite Hd.
    replace (inside (rows a) (cols a) i j) with true; [reflexivity|].
    symmetry. apply inside_true. lia.
  - destruct (subtract_spec uninit a b Ha) as (r & E & Hrows & Hcols & Hd).
    exists r. split; [assumption|]. split; [assumption|]. split; [assumption|].
    intros i j Hi Hj. rewrite Hd.
    replace (inside (rows a) (cols a) i j) with true; [reflexivity|].
    symmetry. apply inside_true. lia.
Qed.

Lemma add_subtract_entries_witness :
  (exists r, add junk square_3x3 square_3x3 = Ok r /\ rows r = 3 /\ cols r = 3 /\
     forall i j, 0 <= i < 3 -> 0 <= j < 3 ->
       data r i j = fadd (data square_3x3 i j) (data square_3x3 i j)) /\
  (exists r, subtract junk square_3x3 square_3x3 = Ok r /\ rows r = 3 /\ cols r = 3 /\
     forall i j, 0 <= i < 3 -> 0 <= j < 3 ->
       data r i j = fsub (data square_3x3 i j) (data square_3x3 i j)).
Proof.
  apply (add_subtract_entries junk square_3x3 square_3x3).
  unfold within_capacity, MAX. simpl. lia.
Defined.

(** C3 (counterexample).  [create_matrix(0, 5)] does not fail: it returns a
    matrix whose shape is 0 x 5, with no cell written. *)
Lemma create_accepts_zero_rows :
  create_matrix junk 0 5 = Ok (mkMatrix 0 5 junk) /\ ~ fails (create_matrix junk 0 5).
Proof.
  split; [reflexivity|]. intros F. exact (F _ eq_refl).
Qed.

(** C3 (amended).  [create_matrix] checks no bound and reports no error.
    Whenever [rows <= MAX] and [cols <= MAX], in particular when both are in
    [[1, MAX]], it returns a matrix of shape [rows x cols] with every logical
    entry equal to [0.0]; the rest of the array keeps its indeterminate
    content. *)
Theorem create_matrix_zeroes uninit r c :
  r <= MAX -> c <= MAX ->
  exists m, create_matrix uninit r c = Ok m /\ rows m = r /\ cols m = c /\
    (forall i j, 0 <= i < r -> 0 <= j < c -> data m i j = zero) /\
    (forall i j, ~ (0 <= i < r /\ 0 <= j < c) -> data m i j = uninit i j).
Proof.
  intros Hr Hc.
  destruct (create_matrix_spec uninit r c Hr Hc) as (m & E & Hrows & Hcols & Hd).
  exists m. split; [assumption|]. split; [assumption|]. split; [assumption|]. split.
  - intros i j Hi Hj. rewrite Hd.
    replace (inside r c i j) with true; [reflexivity|].
    symmetry. apply inside_true. lia.
  - intros i j H. rewrite Hd.
    replace (inside r c i j) with false; [reflexivity|].
    symmetry. now apply inside_false.
Qed.

Lemma create_matrix_zeroes_witness :
  exists m, create_matrix junk 3 4 = Ok m /\ rows m = 3 /\ cols m = 4 /\
    (forall i j, 0 <= i < 3 -> 0 <= j < 4 -> data m i j = zero) /\
    (forall i j, ~ (0 <= i < 3 /\ 0 <= j < 4) -> data m i j = junk i j).
Proof.
  apply (create_matrix_zeroes junk 3 4); unfold MAX; lia.
Defined.

(** C4 (counterexample).  [determinant_2x2] on the 3 x 3 matrix A of [main]
    does not fail: it returns 1 * 5 - 2 * 4 = -3. *)
Lemma determinant_accepts_3x3 :
  rows square_3x3 <> 2 /\
  determinant_2x2 square_3x3 = Ok (double_of_int (-3)) /\
  ~ fails (determinant_2x2 square_3x3).
Proof.
  split; [discriminate|]. split; [vm_compute; reflexivity|].
  intros F. exact (F _ eq_refl).
Qed.

(** C4 (amended).  [determinant_2x2] checks no shape and reports no error: for
    a matrix of any declared shape, the 2 x 2 ones included, it returns
    [m[0][0] * m[1][1] - m[0][1] * m[1][0]], read from the backing array. *)
Theorem determinant_2x2_formula m :
  determinant_2x2 m =
  Ok (fsub (fmul (data m 0 0) (data m 1 1)) (fmul (data m 0 1) (data m 1 0))).
Proof. apply determinant_2x2_spec. Qed.

(** ** Symmetry *)

Lemma existsb_false {A : Type} (f : A -> bool) (l : list A) :
  existsb f l = false <-> forall x, In x l -> f x = false.
Proof.
  induction l as [|a l IH]; simpl.
  - split; [intros _ x []|reflexivity].
  - rewrite orb_false_iff, IH. split.
    + intros [Ha Hl] x [<-|Hx]; auto.
    + intros H. split; [apply H; now left|intros x Hx; apply H; now right].
Qed.

Lemma is_symmetric_true_iff m :
  rows m = cols m -> rows m <= MAX ->
  (is_symmetric m = Ok 1 <->
   forall i j, 0 <= i < rows m -> 0 <= j < cols m -> differ m i j = false).
Proof.
  intros Hsq Hcap. rewrite (is_symmetric_square m Hsq Hcap).
  destruct (existsb _ _) eqn:E.
  - split; [discriminate|]. intros H.
    assert (E' : existsb (fun i => existsb (fun j => differ m i j) (upto (cols m)))
                   (upto (rows m)) = false).
    { apply existsb_false. intros i Hi. apply existsb_false. intros j Hj.
      apply in_upto in Hi, Hj. now apply H. }
    congruence.
  - split; [|reflexivity]. intros _ i j Hi Hj.
    rewrite existsb_false in E. specialize (E i (proj2 (in_upto i _) Hi)).
    rewrite existsb_false in E. exact (E j (proj2 (in_upto j _) Hj)).
Qed.

Lemma differ_numbers m i j :
  is_finite (data m i j) = true -> is_finite (data m j i) = true ->
  differ m i j = negb (fle (fabs (fsub (data m i j) (data m j i))) eps).
Proof.
  intros Hx Hy. unfold differ. apply fgt_not_fle.
  - apply fabs_not_nan. now apply fsub_numbers_not_nan.
  - discriminate.
Qed.

(** C5 (counterexample).  On the 1 x 1 matrix [[inf]], [is_symmetric] returns
    1, although [|inf - inf| <= 1e-9] is false: the difference is a NaN. *)
Lemma is_symmetric_accepts_nan_difference :
  exists m, only_infinity = Ok m /\ rows m = cols m /\
    is_symmetric m = Ok 1 /\
    ~ (is_symmetric m = Ok 1 <->
       forall i j, 0 <= i < rows m -> 0 <= j < cols m ->
         fle (fabs (fsub (data m i j) (data m j i))) eps = true).
Proof.
  eexists. split; [reflexivity|]. split; [reflexivity|]. split; [reflexivity|].
  intros [H _]. specialize (H eq_refl 0 0).
  simpl in H. discriminate H; lia.
Qed.

(** C5 (amended).  [is_symmetric] returns 0 whenever [rows != cols].  For a
    square matrix it returns 1 or 0, and 1 if and only if no pair [(i, j)] has
    [|m[i][j] - m[j][i]| > 1e-9]; when every logical entry is a finite number,
    that is: if and only if [|m[i][j] - m[j][i]| <= 1e-9] for all [i], [j].
    [is_symmetric(identity(n))] is 1 for every [n] in [[1, MAX]]. *)
Theorem is_symmetric_tolerance uninit q m n :
  rows q <> cols q -> rows m = cols m -> rows m <= MAX -> 1 <= n <= MAX ->
  is_symmetric q = Ok 0 /\
  (is_symmetric m = Ok 1 \/ is_symmetric m = Ok 0) /\
  (is_symmetric m = Ok 1 <->
   forall i j, 0 <= i < rows m -> 0 <= j < cols m ->
     fgt (fabs (fsub (data m i j) (data m j i))) eps = false) /\
  (all_finite m ->
   (is_symmetric m = Ok 1 <->
    forall i j, 0 <= i < rows m -> 0 <= j < cols m ->
      fle (fabs (fsub (data m i j) (data m j i))) eps = true)) /\
  exists id, identity uninit n = Ok id /\ is_symmetric id = Ok 1.
Proof.
  intros Hq Hsq Hcap Hn.
  split; [now apply is_symmetric_not_square|].
  split; [rewrite (is_symmetric_square m Hsq Hcap); destruct (existsb _ _); auto|].
  split; [exact (is_symmetric_true_iff m Hsq Hcap)|]. split.
  - intros Hfin. rewrite (is_symmetric_true_iff m Hsq Hcap).
    split; intros H i j Hi Hj; specialize (H i j Hi Hj);
      rewrite differ_numbers in * by (apply Hfin; lia);
      destruct (fle _ _); simpl in *; congruence.
  - destruct (identity_spec uninit n) as (id & E & Hrows & Hcols & Hd); [lia|].
    exists id. split; [assumption|].
    apply is_symmetric_true_iff; [congruence|lia|].
    intros i j Hi Hj. unfold differ. rewrite !Hd.
    replace (inside n n i j) with true by (symmetry; apply inside_true; lia).
    replace (inside n n j i) with true by (symmetry; apply inside_true; lia).
    rewrite (Z.eqb_sym j i). destruct (i =? j); reflexivity.
Qed.

Lemma is_symmetric_tolerance_witness :
  is_symmetric rect_2x3 = Ok 0 /\
  (is_symmetric symmetric_2x2 = Ok 1 \/ is_symmetric symmetric_2x2 = Ok 0) /\
  (is_symmetric symmetric_2x2 = Ok 1 <->
   forall i j, 0 <= i < 2 -> 0 <= j < 2 ->
     fgt (fabs (fsub (data symmetric_2x2 i j) (data symmetric_2x2 j i))) eps = false) /\
  (is_symmetric symmetric_2x2 = Ok 1 <->
   forall i j, 0 <= i < 2 -> 0 <= j < 2 ->
     fle (fabs (fsub (data symmetric_2x2 i j) (data symmetric_2x2 j i))) eps = true) /\
  exists id, identity junk 3 = Ok id /\ is_symmetric id = Ok 1.
Proof.
  destruct (is_symmetric_tolerance junk rect_2x3 symmetric_2x2 3)
    as (H1 & H2 & H3 & H4 & H5).
  - simpl. lia.
  - reflexivity.
  - unfold MAX. simpl. lia.
  - unfold MAX. lia.
  - split; [exact H1|]. split; [exact H2|]. split; [exact H3|]. split; [|exact H5].
    apply H4. intros i j _ _. simpl. destruct (i =? j); reflexivity.
Defined.

(** ** Trace *)

Lemma count_up k : 0 <= k < MAX -> fadd (double_of_int k) one = double_of_int (k + 1).
Proof.
  unfold MAX. intros H.
  assert (E : k = 0 \/ k = 1 \/ k = 2 \/ k = 3 \/ k = 4 \/
              k = 5 \/ k = 6 \/ k = 7 \/ k = 8 \/ k = 9) by lia.
  repeat (destruct E as [->|E]; [vm_compute; reflexivity|]).
  subst k. vm_compute. reflexivity.
Qed.

Lemma diag_sum_identity id n :
  n <= MAX ->
  (forall i, 0 <= i < n -> data id i i = one) ->
  forall k, 0 <= k -> k <= n -> diag_sum id k = double_of_int k.
Proof.
  intros Hn Hd k Hk. pattern k. apply natlike_ind; [| |assumption].
  - intros _. reflexivity.
  - intros x Hx IH Hle. unfold Z.succ, diag_sum.
    rewrite upto_succ, fold_left_app by assumption. simpl.
    fold (diag_sum id x). rewrite IH, Hd by lia. apply count_up. lia.
Qed.

(** C6.  [trace(m)] is the sum of [m[i][i]] for [i] in
    [[0, min(m.rows, m.cols))], added up from [0.0] with [i] going up, square
    or not; and [trace(identity(n))] is [n] for every [n] in [[1, MAX]]. *)
Theorem trace_diagonal uninit m n :
  within_capacity m -> 1 <= n <= MAX ->
  trace m = Ok (fold_left (fun s i => fadd s (data m i i))
                  (upto (Z.min (rows m) (cols m))) zero) /\
  exists id, identity uninit n = Ok id /\ trace id = Ok (double_of_int n).
Proof.
  intros [Hr Hc] Hn. split.
  - apply trace_spec. lia.
  - destruct (identity_spec uninit n) as (id & E & Hrows & Hcols & Hd); [lia|].
    exists id. split; [assumption|].
    rewrite trace_spec by lia. rewrite Hrows, Hcols, Z.min_id. f_equal.
    apply (diag_sum_identity id n); try lia.
    intros i Hi. rewrite Hd.
    replace (inside n n i i) with true by (symmetry; apply inside_true; lia).
    now rewrite Z.eqb_refl.
Qed.

Lemma trace_diagonal_witness :
  trace rect_2x3 = Ok (fold_left (fun s i => fadd s (data rect_2x3 i i)) (upto 2) zero) /\
  exists id, identity junk 4 = Ok id /\ trace id = Ok (double_of_int 4).
Proof.
  apply (trace_diagonal junk rect_2x3 4).
  - unfold within_capacity, MAX. simpl. lia.
  - unfold MAX. lia.
Defined.

(** ** Transpose *)

(** C7.  For every matrix [m], [transpose(m)] has shape [m.cols x m.rows] with
    entry [(j, i)] equal to [m[i][j]], and [transpose(transpose(m))] is [m]. *)
Theorem transpose_involution u1 u2 m :
  within_capacity m ->
  exists t, transpose u1 m = Ok t /\ rows t = cols m /\ cols t = rows m /\
    (forall i j, 0 <= i < rows m -> 0 <= j < cols m -> data t j i = data m i j) /\
    exists tt, transpose u2 t = Ok tt /\ same_matrix tt m.
Proof.
  intros Hm.
  destruct (transpose_spec u1 m Hm) as (t & E & Hrows & Hcols & Hd).
  assert (Ht : forall i j, 0 <= i < rows m -> 0 <= j < cols m -> data t j i = data m i j).
  { intros i j Hi Hj. rewrite Hd.
    replace (inside (cols m) (rows m) j i) with true; [reflexivity|].
    symmetry. apply inside_true. lia. }
  exists t. split; [assumption|]. split; [assumption|]. split; [assumption|].
  split; [assumption|].
  destruct (transpose_spec u2 t) as (tt & E' & Hrows' & Hcols' & Hd').
  { destruct Hm. split; lia. }
  exists tt. split; [assumption|].
  split; [congruence|]. split; [congruence|].
  intros i j Hi Hj. rewrite Hd'.
  replace (inside (cols t) (rows t) i j) with true
    by (symmetry; apply inside_true; lia).
  apply Ht; lia.
Qed.

Lemma transpose_involution_witness :
  exists t, transpose junk rect_2x3 = Ok t /\ rows t = 3 /\ cols t = 2 /\
    (forall i j, 0 <= i < 2 -> 0 <= j < 3 -> data t j i = data rect_2x3 i j) /\
    exists tt, transpose junk t = Ok tt /\ same_matrix tt rect_2x3.
Proof.
  apply (transpose_involution junk junk rect_2x3).
  unfold within_capacity, MAX. simpl. lia.
Defined.

(** ** Multiplication by the identity *)

Section DotIdentity.

Variables (m id : Matrix) (n : Z).

Hypothesis id_cells : forall k l,
  0 <= k < n -> 0 <= l < n -> data id k l = if k =? l then one else zero.

(** Row [i] of [m] against column [j] of the identity: the sum is [+0.0]
    until [k] passes [j], and what it absorbed of [m[i][j]] afterwards. *)
Lemma dot_identity_r i j :
  (forall k, 0 <= k < n -> is_finite (data m i k) = true) ->
  0 <= j < n ->
  forall k, 0 <= k -> k <= n ->
    dot m id i j k zero = if j <? k then absorbed (data m i j) else zero.
Proof.
  intros Hfin Hj k Hk. pattern k. apply natlike_ind; [| |assumption].
  - intros _. unfold dot. simpl. bool_cases.
  - intros x Hx IH Hle. unfold Z.succ. rewrite dot_succ, IH, id_cells by lia.
    destruct (Z.eqb_spec x j) as [->|Hne].
    + rewrite fmul_one_r by (apply Hfin; lia).
      rewrite Z.ltb_irrefl, fadd_zero_number by (apply Hfin; lia). bool_cases.
    + pose proof (fmul_zero_r (data m i x) (Hfin x ltac:(lia))) as Hz.
      destruct (Z.ltb_spec j x).
      * rewrite fadd_absorbed_zero by (try apply Hfin; auto; lia). bool_cases.
      * rewrite fadd_zero_zero by assumption. bool_cases.
Qed.

(** Row [i] of the identity against column [j] of [m]. *)
Lemma dot_identity_l i j :
  (forall k, 0 <= k < n -> is_finite (data m k j) = true) ->
  0 <= i < n ->
  forall k, 0 <= k -> k <= n ->
    dot id m i j k zero = if i <? k then absorbed (data m i j) else zero.
Proof.
  intros Hfin Hi k Hk. pattern k. apply natlike_ind; [| |assumption].
  - intros _. unfold dot. simpl. bool_cases.
  - intros x Hx IH Hle. unfold Z.succ. rewrite dot_succ, IH, id_cells by lia.
    destruct (Z.eqb_spec i x) as [<-|Hne].
    + rewrite fmul_one_l by (apply Hfin; lia).
      rewrite Z.ltb_irrefl, fadd_zero_number by (apply Hfin; lia). bool_cases.
    + pose proof (fmul_zero_l (data m x j) (Hfin x ltac:(lia))) as Hz.
      destruct (Z.ltb_spec i x).
      * rewrite fadd_absorbed_zero by (try apply Hfin; auto; lia). bool_cases.
      * rewrite fadd_zero_zero by assumption. bool_cases.
Qed.

End DotIdentity.

(** C8 (counterexample).  For [m = [[inf 0] [0 0]]], entry (0, 1) of
    [multiply(m, identity(2))] is [inf * 0 + 0 * 1], a NaN, and so is entry
    (1, 0) of [multiply(identity(2), m)]: neither product equals [m]. *)
Lemma multiply_identity_infinity :
  exists m id p q,
    with_infinity = Ok m /\ rows m = 2 /\ cols m = 2 /\
    identity junk 2 = Ok id /\
    multiply junk m id = Ok p /\ multiply junk id m = Ok q /\
    data m 0 1 = zero /\ data p 0 1 = S754_nan /\
    data m 1 0 = zero /\ data q 1 0 = S754_nan /\
    ~ equal_entries p m /\ ~ equal_entries q m.
Proof.
  destruct (create_matrix_spec junk 2 2) as (m0 & E0 & Hr0 & Hc0 & Hd0);
    [discriminate|discriminate|].
  exists (mkMatrix (rows m0) (cols m0) (update (data m0) 0 0 infinity)).
  destruct (identity_spec junk 2) as (id & Eid & Hrid & Hcid & Hdid); [discriminate|].
  exists id.
  set (m := mkMatrix (rows m0) (cols m0) (update (data m0) 0 0 infinity)).
  destruct (multiply_spec junk m id) as (p & Ep & Hrp & Hcp & Hdp);
    [split; simpl; rewrite ?Hr0, ?Hc0; discriminate|rewrite Hcid; discriminate|].
  destruct (multiply_spec junk id m) as (q & Eq & Hrq & Hcq & Hdq);
    [split; rewrite ?Hrid, ?Hcid; discriminate|simpl; rewrite Hc0; discriminate|].
  exists p, q.
  assert (M01 : data m 0 1 = zero) by (simpl; unfold update; simpl; now rewrite Hd0).
  assert (M10 : data m 1 0 = zero) by (simpl; unfold update; simpl; now rewrite Hd0).
  assert (P01 : data p 0 1 = S754_nan).
  { rewrite Hdp. simpl rows. simpl cols. rewrite Hr0, Hcid, Hc0.
    unfold dot. simpl. unfold update. simpl. rewrite !Hdid, !Hd0. reflexivity. }
  assert (Q10 : data q 1 0 = S754_nan).
  { rewrite Hdq. simpl rows. simpl cols. rewrite Hrid, Hcid, Hc0.
    unfold dot. simpl. unfold update. simpl. rewrite !Hdid, !Hd0. reflexivity. }
  split; [unfold with_infinity; rewrite E0; reflexivity|].
  split; [assumption|]. split; [assumption|]. split; [assumption|].
  split; [assumption|]. split; [assumption|].
  split; [assumption|]. split; [assumption|].
  split; [assumption|]. split; [assumption|]. split.
  - intros (_ & _ & H). specialize (H 0 1). rewrite P01 in H.
    rewrite Hrp, Hcp, Hcid in H. simpl in H. rewrite Hr0 in H.
    discriminate H; lia.
  - intros (_ & _ & H). specialize (H 1 0). rewrite Q10 in H.
    rewrite Hrq, Hcq, Hrid in H. simpl in H. rewrite Hc0 in H.
    discriminate H; lia.
Qed.

(** C8 (amended).  For every square matrix [m] of size [n], [1 <= n <= MAX],
    whose logical entries are all finite numbers, [multiply(m, identity(n))]
    and [multiply(identity(n), m)] have the shape of [m], and each of their
    logical entries is the entry of [m] (a [-0.0] comes back as [+0.0]), hence
    compares equal to it under the binary64 [==]. *)
Theorem multiply_identity u1 u2 u3 n m :
  1 <= n <= MAX -> rows m = n -> cols m = n -> all_finite m ->
  exists id p q,
    identity u1 n = Ok id /\
    multiply u2 m id = Ok p /\ multiply u3 id m = Ok q /\
    (forall i j, 0 <= i < n -> 0 <= j < n ->
       data p i j = absorbed (data m i j) /\ data q i j = absorbed (data m i j)) /\
    equal_entries p m /\ equal_entries q m.
Proof.
  intros Hn Hrows Hcols Hfin.
  destruct (identity_spec u1 n) as (id & Eid & Hrid & Hcid & Hdid); [lia|].
  assert (Hid : forall k l, 0 <= k < n -> 0 <= l < n ->
                  data id k l = if k =? l then one else zero).
  { intros k l Hk Hl. rewrite Hdid.
    replace (inside n n k l) with true; [reflexivity|].
    symmetry. apply inside_true. lia. }
  destruct (multiply_spec u2 m id) as (p & Ep & Hrp & Hcp & Hdp);
    [split; lia|lia|].
  destruct (multiply_spec u3 id m) as (q & Eq & Hrq & Hcq & Hdq);
    [split; lia|lia|].
  assert (Hp : forall i j, 0 <= i < n -> 0 <= j < n -> data p i j = absorbed (data m i j)).
  { intros i j Hi Hj. rewrite Hdp.
    replace (inside (rows m) (cols id) i j) with true
      by (symmetry; apply inside_true; lia).
    rewrite Hcols, (dot_identity_r m id n Hid i j) by (intros; try apply Hfin; lia).
    replace (j <? n) with true by (symmetry; apply Z.ltb_lt; lia). reflexivity. }
  assert (Hq : forall i j, 0 <= i < n -> 0 <= j < n -> data q i j = absorbed (data m i j)).
  { intros i j Hi Hj. rewrite Hdq.
    replace (inside (rows id) (cols m) i j) with true
      by (symmetry; apply inside_true; lia).
    rewrite Hcid, (dot_identity_l m id n Hid i j) by (intros; try apply Hfin; lia).
    replace (i <? n) with true by (symmetry; apply Z.ltb_lt; lia). reflexivity. }
  exists id, p, q.
  split; [assumption|]. split; [assumption|]. split; [assumption|].
  split; [intros i j Hi Hj; split; auto|]. split.
  - split; [congruence|]. split; [congruence|].
    intros i j Hi Hj. rewrite Hp by lia. apply feq_absorbed, Hfin; lia.
  - split; [congruence|]. split; [congruence|].
    intros i j Hi Hj. rewrite Hq by lia. apply feq_absorbed, Hfin; lia.
Qed.

Lemma multiply_identity_witness :
  exists id p q,
    identity junk 2 = Ok id /\
    multiply junk symmetric_2x2 id = Ok p /\ multiply junk id symmetric_2x2 = Ok q /\
    (forall i j, 0 <= i < 2 -> 0 <= j < 2 ->
       data p i j = absorbed (data symmetric_2x2 i j) /\
       data q i j = absorbed (data symmetric_2x2 i j)) /\
    equal_entries p symmetric_2x2 /\ equal_entries q symmetric_2x2.
Proof.
  apply (multiply_identity junk junk junk 2 symmetric_2x2).
  - unfold MAX. lia.
  - reflexivity.
  - reflexivity.
  - intros i j _ _. simpl. destruct (i =? j); reflexivity.
Defined.

(** ** Scaling *)

(** C9 (counterexample).  With [m = [[3]]], [k1 = 2^53] and [k2 = 1]: the sum
    [k1 + k2] rounds to [2^53], so [scale(m, k1 + k2)] holds [3 * 2^53], while
    [add(scale(m, k1), scale(m, k2))] holds [3 * 2^53 + 3] rounded, that is
    [3 * 2^53 + 4]. *)
Lemma scale_not_linear :
  exists l s1 s2 r,
    scalar_multiply junk only_three (fadd two_53 one) = Ok l /\
    scalar_multiply junk only_three two_53 = Ok s1 /\
    scalar_multiply junk only_three one = Ok s2 /\
    add junk s1 s2 = Ok r /\
    data l 0 0 = double_of_int 27021597764222976 /\
    data r 0 0 = double_of_int 27021597764222980 /\
    ~ same_matrix l r /\ ~ equal_entries l r.
Proof.
  destruct (scalar_multiply_spec junk only_three (fadd two_53 one))
    as (l & El & Hrl & Hcl & Hdl); [split; discriminate|].
  destruct (scalar_multiply_spec junk only_three two_53)
    as (s1 & E1 & Hr1 & Hc1 & Hd1); [split; discriminate|].
  destruct (scalar_multiply_spec junk only_three one)
    as (s2 & E2 & Hr2 & Hc2 & Hd2); [split; discriminate|].
  destruct (add_spec junk s1 s2) as (r & Er & Hrr & Hcr & Hdr);
    [split; rewrite ?Hr1, ?Hc1; discriminate|].
  exists l, s1, s2, r.
  assert (L : data l 0 0 = double_of_int 27021597764222976).
  { rewrite Hdl. vm_compute. reflexivity. }
  assert (Rv : data r 0 0 = double_of_int 27021597764222980).
  { rewrite Hdr, Hr1, Hc1, Hd1, Hd2. vm_compute. reflexivity. }
  split; [assumption|]. split; [assumption|]. split; [assumption|].
  split; [assumption|]. split; [assumption|]. split; [assumption|]. split.
  - intros (_ & _ & H). specialize (H 0 0). rewrite L, Rv, Hrl, Hcl in H.
    discriminate H; simpl; lia.
  - intros (_ & _ & H). specialize (H 0 0). rewrite L, Rv, Hrl, Hcl in H.
    discriminate H; simpl; lia.
Qed.

(** C9 (amended).  For every matrix [m] and scalars [k1], [k2] (zero and
    negative values included), [scale(m, k)] has the shape of [m] with entry
    [(i, j)] equal to [m[i][j] * k].  [scale(m, k1 + k2)] and
    [add(scale(m, k1), scale(m, k2))] have the same shape, with entries
    [m[i][j] * (k1 + k2)] and [m[i][j] * k1 + m[i][j] * k2]; they are the same
    matrix exactly when these two roundings agree on every logical entry. *)
Theorem scale_linearity u1 u2 u3 u4 m k1 k2 :
  within_capacity m ->
  exists l s1 s2 r,
    scalar_multiply u1 m (fadd k1 k2) = Ok l /\
    scalar_multiply u2 m k1 = Ok s1 /\
    scalar_multiply u3 m k2 = Ok s2 /\
    add u4 s1 s2 = Ok r /\
    (rows l = rows m /\ cols l = cols m) /\
    (rows s1 = rows m /\ cols s1 = cols m) /\
    (rows r = rows m /\ cols r = cols m) /\
    (forall i j, 0 <= i < rows m -> 0 <= j < cols m ->
       data l i j = fmul (data m i j) (fadd k1 k2) /\
       data s1 i j = fmul (data m i j) k1 /\
       data r i j = fadd (fmul (data m i j) k1) (fmul (data m i j) k2)) /\
    (same_matrix l r <->
     forall i j, 0 <= i < rows m -> 0 <= j < cols m ->
       fmul (data m i j) (fadd k1 k2) = fadd (fmul (data m i j) k1) (fmul (data m i j) k2)).
Proof.
  intros Hm.
  destruct (scalar_multiply_spec u1 m (fadd k1 k2) Hm) as (l & El & Hrl & Hcl & Hdl).
  destruct (scalar_multiply_spec u2 m k1 Hm) as (s1 & E1 & Hr1 & Hc1 & Hd1).
  destruct (scalar_multiply_spec u3 m k2 Hm) as (s2 & E2 & Hr2 & Hc2 & Hd2).
  destruct (add_spec u4 s1 s2) as (r & Er & Hrr & Hcr & Hdr).
  { destruct Hm. split; congruence. }
  assert (In : forall i j, 0 <= i < rows m -> 0 <= j < cols m ->
                 inside (rows m) (cols m) i j = true)
    by (intros; apply inside_true; lia).
  assert (Hcells : forall i j, 0 <= i < rows m -> 0 <= j < cols m ->
            data l i j = fmul (data m i j) (fadd k1 k2) /\
            data s1 i j = fmul (data m i j) k1 /\
            data r i j = fadd (fmul (data m i j) k1) (fmul (data m i j) k2)).
  { intros i j Hi Hj. rewrite Hdl, Hd1, Hdr, Hr1, Hc1, Hd1, Hd2, !In by assumption.
    auto. }
  exists l, s1, s2, r.
  split; [assumption|]. split; [assumption|]. split; [assumption|].
  split; [assumption|]. split; [auto|]. split; [auto|].
  split; [split; congruence|]. split; [assumption|]. split.
  - intros (_ & _ & H) i j Hi Hj.
    destruct (Hcells i j Hi Hj) as (<- & _ & <-). apply H; congruence.
  - intros H. split; [congruence|]. split; [congruence|].
    intros i j Hi Hj. rewrite Hrl in Hi. rewrite Hcl in Hj.
    destruct (Hcells i j Hi Hj) as (-> & _ & ->). now apply H.
Qed.

Lemma scale_linearity_witness :
  exists l s1 s2 r,
    scalar_multiply junk rect_2x3 (fadd one (double_of_int (-2))) = Ok l /\
    scalar_multiply junk rect_2x3 one = Ok s1 /\
    scalar_multiply junk rect_2x3 (double_of_int (-2)) = Ok s2 /\
    add junk s1 s2 = Ok r /\
    (rows l = 2 /\ cols l = 3) /\
    (rows s1 = 2 /\ cols s1 = 3) /\
    (rows r = 2 /\ cols r = 3) /\
    (forall i j, 0 <= i < 2 -> 0 <= j < 3 ->
       data l i j = fmul (data rect_2x3 i j) (fadd one (double_of_int (-2))) /\
       data s1 i j = fmul (data rect_2x3 i j) one /\
       data r i j = fadd (fmul (data rect_2x3 i j) one)
                         (fmul (data rect_2x3 i j) (double_of_int (-2)))) /\
    (same_matrix l r <->
     forall i j, 0 <= i < 2 -> 0 <= j < 3 ->
       fmul (data rect_2x3 i j) (fadd one (double_of_int (-2)))
       = fadd (fmul (data rect_2x3 i j) one) (fmul (data rect_2x3 i j) (double_of_int (-2)))).
Proof.
  apply (scale_linearity junk junk junk junk rect_2x3 one (double_of_int (-2))).
  unfold within_capacity, MAX. simpl. lia.
Defined.

(** ** The shape of sums and differences *)

(** C10.  For every pair of matrices [a] and [b], shapes equal or not,
    [add(a, b)] and [subtract(a, b)] have the shape [a.rows x a.cols]; the
    rows and columns that [b] declares play no part: the functions do the same
    on any matrix [b'] that has the cells of [b]. *)
Theorem add_subtract_shape uninit a b :
  within_capacity a ->
  exists r s,
    add uninit a b = Ok r /\ subtract uninit a b = Ok s /\
    rows r = rows a /\ cols r = cols a /\
    rows s = rows a /\ cols s = cols a /\
    forall rows' cols',
      add uninit a (mkMatrix rows' cols' (data b)) = Ok r /\
      subtract uninit a (mkMatrix rows' cols' (data b)) = Ok s.
Proof.
  intros Ha.
  destruct (add_spec uninit a b Ha) as (r & Er & Hrr & Hcr & _).
  destruct (subtract_spec uninit a b Ha) as (s & Es & Hrs & Hcs & _).
  exists r, s.
  split; [assumption|]. split; [assumption|].
  split; [assumption|]. split; [assumption|].
  split; [assumption|]. split; [assumption|].
  intros rows' cols'. split; [exact Er|exact Es].
Qed.

Lemma add_subtract_shape_witness :
  exists r s,
    add junk square_3x3 square_2x2 = Ok r /\ subtract junk square_3x3 square_2x2 = Ok s /\
    rows r = 3 /\ cols r = 3 /\ rows s = 3 /\ cols s = 3 /\
    forall rows' cols',
      add junk square_3x3 (mkMatrix rows' cols' (data square_2x2)) = Ok r /\
      subtract junk square_3x3 (mkMatrix rows' cols' (data square_2x2)) = Ok s.
Proof.
  apply (add_subtract_shape junk square_3x3 square_2x2).
  unfold within_capacity, MAX. simpl. lia.
Defined.

(** * Further properties of the matrix functions *)

(** ** More binary64 arithmetic *)

Lemma fadd_comm x y : fadd x y = fadd y x.
Proof.
  destruct x as [[]|[]| |sx mx ex], y as [[]|[]| |sy my ey]; try reflexivity.
  unfold fadd, SFadd. rewrite (Z.min_comm ey ex).
  now rewrite Z.add_comm.
Qed.

Lemma fmul_comm x y : fmul x y = fmul y x.
Proof.
  destruct x as [[]|[]| |[] mx ex], y as [[]|[]| |[] my ey]; try reflexivity;
    unfold fmul, SFmul; now rewrite (Pos.mul_comm my mx), (Z.add_comm ey ex).
Qed.

(** [x - x] is [+0.0], or a NaN when [x] is not a number: never more than the
    tolerance of [is_symmetric]. *)
Lemma fsub_self x : fsub x x = zero \/ fsub x x = S754_nan.
Proof.
  destruct x as [[]|[]| |s m e]; simpl; auto.
  left. unfold fsub, SFsub. now rewrite Z.sub_diag.
Qed.

Lemma fsub_self_number x : is_finite x = true -> fsub x x = zero.
Proof.
  intros H. destruct (fsub_self x) as [E|E]; [assumption|].
  now destruct (fsub_numbers_not_nan x x H H).
Qed.





(** ** Where [create_matrix] leaves the array *)

Lemma upto_split k n : 0 <= k < n -> exists rest, upto n = upto k ++ k :: rest.
Proof.
  intros H. unfold upto.
  replace (Z.to_nat n) with (Z.to_nat k + S (Z.to_nat n - Z.to_nat k - 1))%nat by lia.
  rewrite seq_app, map_app. simpl. rewrite Z2Nat.id by lia.
  eexists. reflexivity.
Qed.

(** A loop whose iteration [k] leaves the array, after iterations that did
    not, has no defined outcome. *)
Lemma for_loop_undefined {S : Type} (P : Z -> S -> Prop) n k
      (body : Z -> S -> outcome S) s :
  0 <= k < n ->
  P 0 s ->
  (forall i t, 0 <= i < k -> P i t -> exists t', body i t = Ok t' /\ P (i + 1) t') ->
  (forall t, P k t -> body k t = Undefined) ->
  for_loop n body s = Undefined.
Proof.
  intros Hk H0 Hstep Hbad.
  destruct (upto_split k n Hk) as (rest & E).
  unfold for_loop. rewrite E, for_each_app.
  destruct (for_loop_rule P k body s H0 Hstep) as (t & Et & Pt).
  unfold for_loop in Et. rewrite Et. simpl.
  replace (Z.max 0 k) with k in Pt by lia.
  now rewrite (Hbad t Pt).
Qed.

Lemma for_loop_skip {S : Type} n (body : Z -> S -> outcome S) s :
  (forall i t, 0 <= i < n -> body i t = Ok t) -> for_loop n body s = Ok s.
Proof.
  intros H.
  destruct (for_loop_rule (fun _ t => t = s) n body s eq_refl) as (t & E & ->).
  - intros i t Hi ->. exists s. split; [now apply H|reflexivity].
  - assumption.
Qed.

Lemma store_outside m i j v :
  ~ (0 <= i < MAX /\ 0 <= j < MAX) -> store m i j v = Undefined.
Proof.
  intros H. unfold store.
  replace (in_array i j) with false; [reflexivity|].
  symmetry. unfold in_array. rewrite !andb_false_iff, !Z.leb_gt, !Z.ltb_ge. lia.
Qed.

Lemma create_matrix_empty uninit r c :
  r <= 0 \/ c <= 0 -> create_matrix uninit r c = Ok (mkMatrix r c uninit).
Proof.
  intros H. unfold create_matrix. apply for_loop_skip.
  intros i t Hi. apply for_loop_skip. intros j t' Hj. lia.
Qed.

Lemma create_matrix_overruns uninit r c :
  0 < r -> 0 < c -> MAX < r \/ MAX < c -> create_matrix uninit r c = Undefined.
Proof.
  intros Hr Hc Hbig. unfold create_matrix.
  destruct (Z.lt_ge_cases MAX c) as [Hwide|Hfits].
  - (* the first row already runs past column MAX - 1 *)
    apply (for_loop_undefined (fun _ _ => True) r 0); [lia|exact I| |].
    + intros i t Hi. lia.
    + intros t _.
      apply (for_loop_undefined (fun _ _ => True) c MAX); [unfold MAX in *; lia|exact I| |].
      * intros j t' Hj _. rewrite store_ok by (unfold MAX in *; lia). eauto.
      * intros t' _. apply store_outside. lia.
  - (* row MAX is the first one outside the array *)
    apply (for_loop_undefined (fun _ _ => True) r MAX); [unfold MAX in *; lia|exact I| |].
    + intros i t Hi _.
      destruct (for_loop_rule (fun _ _ => True) c
                  (fun j m => store m i j (double_of_int 0)) t I) as (t' & E & _).
      * intros j t' Hj _. rewrite store_ok by lia. eauto.
      * eauto.
    + intros t _.
      apply (for_loop_undefined (fun _ _ => True) c 0); [lia|exact I| |].
      * intros j t' Hj. lia.
      * intros t' _. apply store_outside. lia.
Qed.

(** X1.  [create_matrix] has no defined outcome exactly when both dimensions are
    positive and one of them exceeds [MAX]; with a non-positive dimension no
    cell is written, whatever the other dimension is. *)
Theorem create_matrix_undefined_iff uninit r c :
  create_matrix uninit r c = Undefined <-> 0 < r /\ 0 < c /\ (MAX < r \/ MAX < c).
Proof.
  split.
  - intros E.
    destruct (Z.le_gt_cases r 0) as [Hr|Hr];
      [rewrite create_matrix_empty in E by auto; discriminate|].
    destruct (Z.le_gt_cases c 0) as [Hc|Hc];
      [rewrite create_matrix_empty in E by auto; discriminate|].
    split; [lia|]. split; [lia|].
    destruct (Z.le_gt_cases r MAX) as [Hr'|Hr']; [|lia].
    destruct (Z.le_gt_cases c MAX) as [Hc'|Hc']; [|lia].
    destruct (create_matrix_spec uninit r c Hr' Hc') as (m & Em & _). congruence.
  - intros (Hr & Hc & Hbig). now apply create_matrix_overruns.
Qed.

(** ** What the functions leave alone *)

Lemma outside_untouched uninit (f : Z -> Z -> double) r :
  (forall i j, data r i j = if inside (rows r) (cols r) i j then f i j else uninit i j) ->
  untouched_outside uninit r.
Proof.
  intros H i j Hout. rewrite H.
  replace (inside (rows r) (cols r) i j) with false; [reflexivity|].
  symmetry. now apply inside_false.
Qed.

(** X4.  Every function that builds a matrix writes the logical entries of its
    result and nothing else: the rest of the backing array still holds the
    indeterminate content of the fresh local. *)
Theorem results_untouched_outside uninit a b k n :
  within_capacity a -> cols b <= MAX -> n <= MAX ->
  exists s d p t c id,
    add uninit a b = Ok s /\ subtract uninit a b = Ok d /\
    multiply uninit a b = Ok p /\ transpose uninit a = Ok t /\
    scalar_multiply uninit a k = Ok c /\ identity uninit n = Ok id /\
    untouched_outside uninit s /\ untouched_outside uninit d /\
    untouched_outside uninit p /\ untouched_outside uninit t /\
    untouched_outside uninit c /\ untouched_outside uninit id.
Proof.
  intros Ha Hb Hn.
  destruct (add_spec uninit a b Ha) as (s & Es & Hrs & Hcs & Hds).
  destruct (subtract_spec uninit a b Ha) as (d & Ed & Hrd & Hcd & Hdd).
  destruct (multiply_spec uninit a b Ha Hb) as (p & Ep & Hrp & Hcp & Hdp).
  destruct (transpose_spec uninit a Ha) as (t & Et & Hrt & Hct & Hdt).
  destruct (scalar_multiply_spec uninit a k Ha) as (c & Ec & Hrc & Hcc & Hdc).
  destruct (identity_spec uninit n Hn) as (id & Eid & Hrid & Hcid & Hdid).
  exists s, d, p, t, c, id.
  repeat (split; [assumption|]).
  split; [|split; [|split; [|split; [|split]]]].
  - apply (outside_untouched uninit (fun i j => fadd (data a i j) (data b i j))).
    now rewrite Hrs, Hcs.
  - apply (outside_untouched uninit (fun i j => fsub (data a i j) (data b i j))).
    now rewrite Hrd, Hcd.
  - apply (outside_untouched uninit (fun i j => dot a b i j (cols a) zero)).
    now rewrite Hrp, Hcp.
  - apply (outside_untouched uninit (fun i j => data a j i)).
    now rewrite Hrt, Hct.
  - apply (outside_untouched uninit (fun i j => fmul (data a i j) k)).
    now rewrite Hrc, Hcc.
  - apply (outside_untouched uninit (fun i j => if i =? j then one else zero)).
    now rewrite Hrid, Hcid.
Qed.

Lemma results_untouched_outside_witness :
  exists s d p t c id,
    add junk square_3x3 rect_2x3 = Ok s /\ subtract junk square_3x3 rect_2x3 = Ok d /\
    multiply junk square_3x3 rect_2x3 = Ok p /\ transpose junk square_3x3 = Ok t /\
    scalar_multiply junk square_3x3 minus_one = Ok c /\ identity junk 4 = Ok id /\
    untouched_outside junk s /\ untouched_outside junk d /\
    untouched_outside junk p /\ untouched_outside junk t /\
    untouched_outside junk c /\ untouched_outside junk id.
Proof.
  apply (results_untouched_outside junk square_3x3 rect_2x3 minus_one 4).
  - unfold within_capacity, MAX. simpl. lia.
  - unfold MAX. simpl. lia.
  - unfold MAX. lia.
Defined.

(** ** Algebra that binary64 keeps exact *)

Lemma fold_left_ext_in {A B : Type} (f g : A -> B -> A) (l : list B) :
  (forall s x, In x l -> f s x = g s x) ->
  forall a, fold_left f l a = fold_left g l a.
Proof.
  induction l as [|x l IH]; intros H a; simpl; [reflexivity|].
  rewrite (H a x) by (now left). apply IH. intros s y Hy. apply H. now right.
Qed.

Lemma dot_ext a b a' b' i j i' j' n acc :
  (forall k, 0 <= k < n ->
     fmul (data a i k) (data b k j) = fmul (data a' i' k) (data b' k j')) ->
  dot a b i j n acc = dot a' b' i' j' n acc.
Proof.
  intros H. unfold dot. apply fold_left_ext_in.
  intros s k Hk. apply in_upto in Hk. now rewrite H.
Qed.

Lemma inside_yes R C i j : 0 <= i < R -> 0 <= j < C -> inside R C i j = true.
Proof. intros. apply inside_true. lia. Qed.









(** X9.  Subtracting a matrix of finite numbers from itself gives the matrix that
    [create_matrix] builds: every logical entry is [+0.0]. *)
Theorem subtract_self uninit m :
  within_capacity m -> all_finite m ->
  exists d, subtract uninit m m = Ok d /\ is_zero_matrix (rows m) (cols m) d.
Proof.
  intros Hm Hfin.
  destruct (subtract_spec uninit m m Hm) as (d & E & Hrows & Hcols & Hd).
  exists d. split; [assumption|]. split; [assumption|]. split; [assumption|].
  intros i j Hi Hj. rewrite Hd, inside_yes by lia.
  apply fsub_self_number, Hfin; lia.
Qed.

Lemma subtract_self_witness :
  exists d, subtract junk symmetric_2x2 symmetric_2x2 = Ok d /\ is_zero_matrix 2 2 d.
Proof.
  apply (subtract_self junk symmetric_2x2).
  - unfold within_capacity, MAX. simpl. lia.
  - intros i j _ _. simpl. destruct (i =? j); reflexivity.
Defined.



(** ** Symmetry of transposes, sums and products *)

Lemma some_pair_differs (f : Z -> Z -> bool) r c :
  existsb (fun i => existsb (fun j => f i j) (upto c)) (upto r) = true <->
  exists i j, 0 <= i < r /\ 0 <= j < c /\ f i j = true.
Proof.
  rewrite existsb_exists. split.
  - intros (i & Hi & H). apply existsb_exists in H. destruct H as (j & Hj & H).
    apply in_upto in Hi, Hj. eauto.
  - intros (i & j & Hi & Hj & H). exists i. split; [now apply in_upto|].
    apply existsb_exists. exists j. split; [now apply in_upto|assumption].
Qed.

Lemma differ_equal_cells m i j : data m i j = data m j i -> differ m i j = false.
Proof.
  intros E. unfold differ. rewrite E.
  destruct (fsub_self (data m j i)) as [-> | ->]; reflexivity.
Qed.

(** X11.  [is_symmetric] gives the same answer on a matrix and on its transpose. *)
Theorem is_symmetric_transpose uninit m :
  within_capacity m ->
  exists t, transpose uninit m = Ok t /\ is_symmetric t = is_symmetric m.
Proof.
  intros Hm.
  destruct (transpose_spec uninit m Hm) as (t & E & Hrows & Hcols & Hd).
  exists t. split; [assumption|]. destruct Hm as [Hr Hc].
  destruct (Z.eq_dec (rows m) (cols m)) as [Hsq|Hne].
  - rewrite (is_symmetric_square t), (is_symmetric_square m) by lia.
    f_equal.
    replace (existsb (fun i => existsb (fun j => differ t i j) (upto (cols t))) (upto (rows t)))
      with (existsb (fun i => existsb (fun j => differ m i j) (upto (cols m))) (upto (rows m)));
      [reflexivity|].
    apply eq_true_iff_eq. rewrite !some_pair_differs. split.
    + intros (i & j & Hi & Hj & H). exists j, i.
      split; [lia|]. split; [lia|].
      unfold differ in *. rewrite !Hd, !inside_yes by lia. assumption.
    + intros (i & j & Hi & Hj & H). exists j, i.
      split; [lia|]. split; [lia|].
      unfold differ in *. rewrite !Hd, !inside_yes in H by lia. assumption.
  - rewrite !is_symmetric_not_square by congruence. reflexivity.
Qed.

Lemma is_symmetric_transpose_witness :
  exists t, transpose junk square_3x3 = Ok t /\ is_symmetric t = is_symmetric square_3x3.
Proof.
  apply (is_symmetric_transpose junk square_3x3).
  unfold within_capacity, MAX. simpl. lia.
Defined.

(** X12.  The sum of a square matrix and its transpose always passes
    [is_symmetric], whatever the entries are. *)
Theorem add_transpose_symmetric u1 u2 m :
  rows m = cols m -> rows m <= MAX ->
  exists t s, transpose u1 m = Ok t /\ add u2 m t = Ok s /\ is_symmetric s = Ok 1.
Proof.
  intros Hsq Hcap.
  destruct (transpose_spec u1 m) as (t & Et & Hrt & Hct & Hdt); [split; lia|].
  destruct (add_spec u2 m t) as (s & Es & Hrs & Hcs & Hds); [split; lia|].
  exists t, s. split; [assumption|]. split; [assumption|].
  apply is_symmetric_true_iff; [congruence|lia|].
  intros i j Hi Hj. apply differ_equal_cells.
  rewrite !Hds, !Hdt, !inside_yes by lia. apply fadd_comm.
Qed.

Lemma add_transpose_symmetric_witness :
  exists t s, transpose junk square_3x3 = Ok t /\ add junk square_3x3 t = Ok s /\
    is_symmetric s = Ok 1.
Proof.
  apply (add_transpose_symmetric junk junk square_3x3).
  - reflexivity.
  - unfold MAX. simpl. lia.
Defined.

(** X13.  The product of any matrix with its transpose always passes
    [is_symmetric]: entries [(i, j)] and [(j, i)] accumulate the same terms in
    the same order. *)
Theorem multiply_transpose_symmetric u1 u2 m :
  within_capacity m ->
  exists t p, transpose u1 m = Ok t /\ multiply u2 m t = Ok p /\
    rows p = rows m /\ cols p = rows m /\ is_symmetric p = Ok 1.
Proof.
  intros Hm. pose proof Hm as [Hr Hc].
  destruct (transpose_spec u1 m Hm) as (t & Et & Hrt & Hct & Hdt).
  destruct (multiply_spec u2 m t Hm) as (p & Ep & Hrp & Hcp & Hdp); [lia|].
  exists t, p. split; [assumption|]. split; [assumption|].
  split; [assumption|]. split; [congruence|].
  apply is_symmetric_true_iff; [congruence|lia|].
  intros i j Hi Hj. apply differ_equal_cells.
  rewrite !Hdp, !inside_yes by lia. apply dot_ext. intros k Hk.
  rewrite !Hdt, !inside_yes by lia. apply fmul_comm.
Qed.

Lemma multiply_transpose_symmetric_witness :
  exists t p, transpose junk rect_2x3 = Ok t /\ multiply junk rect_2x3 t = Ok p /\
    rows p = 2 /\ cols p = 2 /\ is_symmetric p = Ok 1.
Proof.
  apply (multiply_transpose_symmetric junk junk rect_2x3).
  unfold within_capacity, MAX. simpl. lia.
Defined.

(** ** Trace and identity under transposition *)

(** X14.  A matrix and its transpose have the same trace, bit for bit. *)
Theorem trace_transpose uninit m :
  within_capacity m ->
  exists t, transpose uninit m = Ok t /\ trace t = trace m.
Proof.
  intros Hm. pose proof Hm as [Hr Hc].
  destruct (transpose_spec uninit m Hm) as (t & E & Hrows & Hcols & Hd).
  exists t. split; [assumption|].
  rewrite !trace_spec by lia. f_equal.
  rewrite Hrows, Hcols, (Z.min_comm (cols m) (rows m)).
  unfold diag_sum. apply fold_left_ext_in.
  intros s i Hi. apply in_upto in Hi. now rewrite Hd, inside_yes by lia.
Qed.

Lemma trace_transpose_witness :
  exists t, transpose junk rect_2x3 = Ok t /\ trace t = trace rect_2x3.
Proof.
  apply (trace_transpose junk rect_2x3).
  unfold within_capacity, MAX. simpl. lia.
Defined.

(** X15.  The identity matrix is its own transpose. *)
Theorem transpose_identity u1 u2 n :
  n <= MAX ->
  exists id t, identity u1 n = Ok id /\ transpose u2 id = Ok t /\ same_matrix t id.
Proof.
  intros Hn.
  destruct (identity_spec u1 n Hn) as (id & Eid & Hrid & Hcid & Hdid).
  destruct (transpose_spec u2 id) as (t & Et & Hrt & Hct & Hdt); [split; lia|].
  exists id, t. split; [assumption|]. split; [assumption|].
  split; [congruence|]. split; [congruence|].
  intros i j Hi Hj. rewrite Hdt, !Hdid, Hrid, Hcid, !inside_yes by lia.
  now rewrite Z.eqb_sym.
Qed.

Lemma transpose_identity_witness :
  exists id t, identity junk 3 = Ok id /\ transpose junk id = Ok t /\ same_matrix t id.
Proof.
  apply (transpose_identity junk junk 3). unfold MAX. lia.
Defined.

(** X3.  [trace] reads outside the array exactly when both dimensions exceed
    [MAX]. *)
Theorem trace_undefined_iff m :
  trace m = Undefined <-> MAX < rows m /\ MAX < cols m.
Proof.
  split.
  - intros E.
    destruct (Z.le_gt_cases (Z.min (rows m) (cols m)) MAX) as [H|H]; [|lia].
    rewrite trace_spec in E by assumption. discriminate.
  - intros [Hr Hc]. unfold trace.
    apply (for_loop_undefined (fun _ _ => True) _ MAX);
      [destruct (Z.ltb_spec (rows m) (cols m)); unfold MAX in *; lia|exact I| |].
    + intros i s Hi _. rewrite load_ok by lia. simpl. eauto.
    + intros s _. unfold load.
      replace (in_array MAX MAX) with false by reflexivity. reflexivity.
Qed.

(** ** Where the other functions leave the array *)

Lemma load_outside m i j :
  ~ (0 <= i < MAX /\ 0 <= j < MAX) -> load m i j = Undefined.
Proof.
  intros H. unfold load.
  replace (in_array i j) with false; [reflexivity|].
  symmetry. unfold in_array. rewrite !andb_false_iff, !Z.leb_gt, !Z.ltb_ge. lia.
Qed.

Lemma fits_or_empty_or_overruns r c :
  (r <= MAX /\ c <= MAX) \/ overruns r c \/ ((r <= 0 \/ c <= 0) /\ ~ overruns r c).
Proof. unfold overruns. lia. Qed.

Section ElementwiseDefined.

(** The loop nest of [add], [subtract], [scalar_multiply] and (with rows and
    columns exchanged) [transpose]: defined whenever [create_matrix] is. *)
Variables (R C : Z).
Variable uninit : cells.
Variable body : Z -> Z -> Matrix -> outcome Matrix.
Variable run : outcome Matrix.
Variables (R0 C0 : Z).

Hypothesis run_eq :
  run = (result <- create_matrix uninit R0 C0 ;;
         for_loop R (fun i result =>
           for_loop C (fun j result => body i j result) result) result).
Hypothesis same_shape : (R0 = R /\ C0 = C) \/ (R0 = C /\ C0 = R).
Hypothesis within : R <= MAX /\ C <= MAX -> exists r, run = Ok r.

Lemma elementwise_undefined_iff : run = Undefined <-> overruns R C.
Proof.
  destruct (fits_or_empty_or_overruns R C) as [Hfit|[Hover|[Hempty Hnot]]].
  - destruct (within Hfit) as (r & E). rewrite E.
    split; [discriminate|]. unfold overruns. lia.
  - split; [auto|]. intros _. rewrite run_eq.
    rewrite create_matrix_overruns; [reflexivity| | |];
      unfold overruns in Hover; lia.
  - split; [|contradiction]. intros E. exfalso. rewrite run_eq in E.
    assert (Hempty0 : R0 <= 0 \/ C0 <= 0) by lia.
    rewrite create_matrix_empty in E by assumption. simpl in E.
    rewrite for_loop_skip in E; [discriminate|].
    intros i t Hi. apply for_loop_skip. intros j t' Hj. lia.
Qed.

End ElementwiseDefined.

Lemma multiply_runs_past_columns uninit a b :
  0 < rows a <= MAX -> 0 < cols b <= MAX -> MAX < cols a ->
  multiply uninit a b = Undefined.
Proof.
  intros Hr Hc Hk. unfold multiply.
  destruct (create_matrix_spec uninit (rows a) (cols b)) as (r0 & E0 & _); [lia|lia|].
  rewrite E0. simpl.
  apply (for_loop_undefined (fun _ _ => True) _ 0); [lia|exact I|intros; lia|].
  intros t _.
  apply (for_loop_undefined (fun _ _ => True) _ 0); [lia|exact I|intros; lia|].
  intros t' _.
  apply (for_loop_undefined (fun _ _ => True) _ MAX); [unfold MAX in *; lia|exact I| |].
  - intros k s Hk' _. rewrite !load_ok by (unfold MAX in *; lia). simpl.
    rewrite store_ok by (unfold MAX in *; lia). eauto.
  - intros s _. rewrite load_outside by lia. reflexivity.
Qed.

(** X2.  [add], [subtract], [scalar_multiply] and [transpose] leave the array
    exactly when the shape of their first operand cannot be filled, and
    [multiply] exactly when the shape [a.rows x b.cols] cannot be filled or,
    that shape being non-empty, [a.cols] exceeds [MAX].  What the second
    operand declares as its number of rows never matters. *)
Theorem undefined_iff uninit a b k :
  (add uninit a b = Undefined <-> overruns (rows a) (cols a)) /\
  (subtract uninit a b = Undefined <-> overruns (rows a) (cols a)) /\
  (scalar_multiply uninit a k = Undefined <-> overruns (rows a) (cols a)) /\
  (transpose uninit a = Undefined <-> overruns (rows a) (cols a)) /\
  (multiply uninit a b = Undefined <->
   overruns (rows a) (cols b) \/ (0 < rows a /\ 0 < cols b /\ MAX < cols a)).
Proof.
  split; [|split; [|split; [|split]]].
  - apply (elementwise_undefined_iff (rows a) (cols a) uninit
             (fun i j result => x <- load a i j ;; y <- load b i j ;; store result i j (fadd x y))
             _ (rows a) (cols a) eq_refl); [auto|].
    intros H. destruct (add_spec uninit a b H) as (r & E & _). eauto.
  - apply (elementwise_undefined_iff (rows a) (cols a) uninit
             (fun i j result => x <- load a i j ;; y <- load b i j ;; store result i j (fsub x y))
             _ (rows a) (cols a) eq_refl); [auto|].
    intros H. destruct (subtract_spec uninit a b H) as (r & E & _). eauto.
  - apply (elementwise_undefined_iff (rows a) (cols a) uninit
             (fun i j result => x <- load a i j ;; store result i j (fmul x k))
             _ (rows a) (cols a) eq_refl); [auto|].
    intros H. destruct (scalar_multiply_spec uninit a k H) as (r & E & _). eauto.
  - apply (elementwise_undefined_iff (rows a) (cols a) uninit
             (fun i j result => x <- load a i j ;; store result j i x)
             _ (cols a) (rows a) eq_refl); [auto|].
    intros H. destruct (transpose_spec uninit a H) as (r & E & _). eauto.
  - destruct (fits_or_empty_or_overruns (rows a) (cols b)) as [Hfit|[Hover|[Hempty Hnot]]].
    + destruct (Z.le_gt_cases (rows a) 0) as [Hr|Hr];
        [|destruct (Z.le_gt_cases (cols b) 0) as [Hc|Hc]].
      * split; [|unfold overruns; lia]. intros E. exfalso. unfold multiply in E.
        rewrite create_matrix_empty in E by auto. simpl in E.
        rewrite for_loop_skip in E; [discriminate|]. intros; lia.
      * split; [|unfold overruns; lia]. intros E. exfalso. unfold multiply in E.
        rewrite create_matrix_empty in E by auto. simpl in E.
        rewrite for_loop_skip in E; [discriminate|].
        intros i t Hi. apply for_loop_skip. intros; lia.
      * destruct (Z.le_gt_cases (cols a) MAX) as [Hk|Hk].
        -- destruct (multiply_spec uninit a b) as (r & E & _); [split; lia|lia|].
           rewrite E. split; [discriminate|]. unfold overruns. lia.
        -- split; [intros _; right; lia|]. intros _.
           apply multiply_runs_past_columns; lia.
    + split; [auto|]. intros _. unfold multiply.
      rewrite create_matrix_overruns; [reflexivity| | |]; unfold overruns in Hover; lia.
    + split; [|intros [H|H]; [contradiction|lia]].
      intros E. exfalso. unfold multiply in E.
      rewrite create_matrix_empty in E by assumption. simpl in E.
      rewrite for_loop_skip in E; [discriminate|].
      intros i t Hi. apply for_loop_skip. intros; lia.
Qed.

(** ** Printing *)

Lemma upto_max n : upto (Z.max 0 n) = upto n.
Proof.
  destruct (Z.le_gt_cases n 0).
  - now rewrite !upto_nonpos by lia.
  - now replace (Z.max 0 n) with n by lia.
Qed.

Lemma print_row m i C out :
  0 <= i < MAX -> C <= MAX ->
  for_loop C (fun j out =>
    x <- load m i j ;;
    Ok (out ++ [printf " %7.2f" [ADouble x]])) out
  = Ok (out ++ map (fun x => printf " %7.2f" [ADouble x])
                   (map (fun j => data m i j) (upto C))).
Proof.
  intros Hi HC.
  match goal with |- for_loop _ ?body _ = _ =>
    destruct (for_loop_rule (fun j o =>
      o = out ++ map (fun x => printf " %7.2f" [ADouble x])
                     (map (fun j => data m i j) (upto j))) C body out)
      as (o & E & Ho)
  end.
  - simpl. now rewrite app_nil_r.
  - intros j o Hj ->. rewrite load_ok by lia. simpl.
    eexists. split; [reflexivity|].
    rewrite upto_succ, !map_app, app_assoc by lia. reflexivity.
  - rewrite E, Ho, upto_max. reflexivity.
Qed.

(** X19.  [print_matrix] adds to the output the header with the name and the shape,
    then the logical entries and nothing else, row by row; what was printed
    before stays. *)
Theorem print_matrix_entries name m out :
  within_capacity m ->
  print_matrix name m out
  = Ok (out ++ printed name (rows m) (cols m) (entries m)).
Proof.
  intros [Hr Hc]. unfold print_matrix, printed, entries.
  set (header := printf _ [AStr name; AInt (rows m); AInt (cols m)]).
  match goal with |- for_loop _ ?body _ = _ =>
    destruct (for_loop_rule (fun i o =>
      o = (out ++ [header]) ++
          List.concat (map printed_row
            (map (fun i => map (fun j => data m i j) (upto (cols m))) (upto i))))
      (rows m) body (out ++ [header])) as (o & E & Ho)
  end.
  - simpl. now rewrite app_nil_r.
  - intros i o Hi ->. cbv beta zeta.
    rewrite print_row by lia. simpl.
    eexists. split; [reflexivity|].
    rewrite upto_succ, !map_app, concat_app by lia. simpl.
    unfold printed_row. rewrite app_nil_r, <- !app_assoc. reflexivity.
  - rewrite E, Ho, upto_max, <- app_assoc. reflexivity.
Qed.

Lemma print_matrix_entries_witness :
  print_matrix "M" rect_2x3 []
  = Ok ([] ++ printed "M" 2 3 (entries rect_2x3)).
Proof.
  apply (print_matrix_entries "M" rect_2x3 []).
  unfold within_capacity, MAX. simpl. lia.
Defined.

(** X20.  Whatever the locals of [main] hold before they are initialised, [main]
    never leaves an array, prints the same transcript and returns 0: no
    indeterminate cell is ever read or printed. *)
Theorem main_transcript garbage : main garbage = Ok (0, transcript).
Proof. vm_compute. reflexivity. Qed.

(** ** Determinants and products of special matrices *)



(** X17.  The 2 x 2 determinant of an identity matrix of size 2 or more is [1.0]. *)
Theorem determinant_identity uninit n :
  2 <= n <= MAX ->
  exists id, identity uninit n = Ok id /\ determinant_2x2 id = Ok one.
Proof.
  intros Hn.
  destruct (identity_spec uninit n) as (id & E & Hrows & Hcols & Hd); [lia|].
  exists id. split; [assumption|].
  rewrite determinant_2x2_spec, !Hd, !inside_yes by lia. reflexivity.
Qed.

Lemma determinant_identity_witness :
  exists id, identity junk 2 = Ok id /\ determinant_2x2 id = Ok one.
Proof.
  apply (determinant_identity junk 2). unfold MAX. lia.
Defined.

(** X18.  The product of an identity matrix with itself is that identity matrix,
    bit for bit. *)
Theorem identity_squared u1 u2 n :
  n <= MAX ->
  exists id p, identity u1 n = Ok id /\ multiply u2 id id = Ok p /\ same_matrix p id.
Proof.
  intros Hn.
  destruct (identity_spec u1 n Hn) as (id & E & Hrows & Hcols & Hd).
  assert (Hid : forall k l, 0 <= k < n -> 0 <= l < n ->
                  data id k l = if k =? l then one else zero).
  { intros k l Hk Hl. now rewrite Hd, inside_yes by lia. }
  destruct (multiply_spec u2 id id) as (p & Ep & Hrp & Hcp & Hdp); [split; lia|lia|].
  exists id, p. split; [assumption|]. split; [assumption|].
  split; [congruence|]. split; [congruence|].
  intros i j Hi Hj. rewrite Hdp, inside_yes by lia.
  rewrite Hcols, (dot_identity_r id id n Hid i j); try lia.
  - replace (j <? n) with true by (symmetry; apply Z.ltb_lt; lia).
    rewrite Hid by lia. now destruct (i =? j).
  - intros k Hk. rewrite Hid by lia. now destruct (i =? k).
Qed.

Lemma identity_squared_witness :
  exists id p, identity junk 3 = Ok id /\ multiply junk id id = Ok p /\ same_matrix p id.
Proof.
  apply (identity_squared junk junk 3). unfold MAX. lia.
Defined.

(** * Properties of the key/value store *)

(** ** Strings in [char] arrays *)

Lemma clean_until_nul s : StackArray.clean (StackArray.until_nul s) = true.
Proof.
  induction s as [|c s IH]; simpl; [reflexivity|].
  destruct (StackArray.is_nul c) eqn:E; simpl; [reflexivity|].
  now rewrite E, IH.
Qed.

Lemma until_nul_clean s : StackArray.clean s = true -> StackArray.until_nul s = s.
Proof.
  induction s as [|c s IH]; simpl; [reflexivity|].
  intros H. apply andb_true_iff in H. destruct H as [Hc Hs].
  apply negb_true_iff in Hc. now rewrite Hc, IH.
Qed.

(** An array that holds the characters of a clean string and then a NUL,
    within the characters that may be read, reads back as that string. *)
Lemma scan_reads s : forall a start fuel,
  StackArray.clean s = true ->
  (forall i, (i <= String.length s)%nat ->
     a (start + Z.of_nat i) = StackArray.char_of s i) ->
  (String.length s < fuel)%nat ->
  StackArray.scan a start fuel = Ok s.
Proof.
  induction s as [|c s IH]; intros a start fuel Hclean Ha Hfuel.
  - destruct fuel as [|fuel]; [simpl in Hfuel; lia|]. simpl.
    specialize (Ha O (Nat.le_refl _)). rewrite Z.add_0_r in Ha. now rewrite Ha.
  - destruct fuel as [|fuel]; [simpl in Hfuel; lia|].
    simpl in Hclean. apply andb_true_iff in Hclean. destruct Hclean as [Hc Hs].
    apply negb_true_iff in Hc. simpl.
    pose proof (Ha O ltac:(simpl; lia)) as H0. rewrite Z.add_0_r in H0.
    unfold StackArray.char_of in H0. simpl in H0. rewrite H0, Hc.
    rewrite (IH a (start + 1) fuel Hs); [reflexivity| |simpl in Hfuel; lia].
    intros i Hi. specialize (Ha (S i) ltac:(simpl; lia)).
    replace (start + 1 + Z.of_nat i) with (start + Z.of_nat (S i)) by lia.
    exact Ha.
Qed.

(** An array with no NUL among the characters that may be read cannot be
    read as a string. *)
Lemma scan_runs_past fuel : forall a start,
  (forall i, (i < fuel)%nat -> StackArray.is_nul (a (start + Z.of_nat i)) = false) ->
  StackArray.scan a start fuel = Undefined.
Proof.
  induction fuel as [|fuel IH]; intros a start H; simpl; [reflexivity|].
  pose proof (H O ltac:(lia)) as H0. rewrite Z.add_0_r in H0. rewrite H0.
  rewrite IH; [reflexivity|].
  intros i Hi. specialize (H (S i) ltac:(lia)).
  now replace (start + 1 + Z.of_nat i) with (start + Z.of_nat (S i)) by lia.
Qed.

Lemma get_none s : forall i, (String.length s <= i)%nat -> String.get i s = None.
Proof.
  induction s as [|c s IH]; intros i H; [reflexivity|].
  destruct i as [|i]; simpl in *; [lia|]. apply IH. lia.
Qed.

Lemma get_clean s : forall i c,
  StackArray.clean s = true -> String.get i s = Some c -> StackArray.is_nul c = false.
Proof.
  induction s as [|c' s IH]; intros i c Hclean Hget; [discriminate|].
  simpl in Hclean. apply andb_true_iff in Hclean. destruct Hclean as [Hc Hs].
  destruct i as [|i]; simpl in Hget.
  - injection Hget as <-. now apply negb_true_iff.
  - eapply IH; eassumption.
Qed.

Lemma get_some s : forall i, (i < String.length s)%nat -> exists c, String.get i s = Some c.
Proof.
  induction s as [|c s IH]; intros i H; simpl in H; [lia|].
  destruct i as [|i]; simpl; [eauto|]. apply IH. lia.
Qed.

Lemma take_length n : forall s,
  String.length (StackArray.take n s) = Nat.min n (String.length s).
Proof.
  induction n as [|n IH]; intros [|c s]; simpl; try reflexivity. now rewrite IH.
Qed.

Lemma take_get n : forall s i,
  (i < n)%nat -> String.get i (StackArray.take n s) = String.get i s.
Proof.
  induction n as [|n IH]; intros [|c s] i H; simpl; try reflexivity; try lia.
  destruct i as [|i]; [reflexivity|]. apply IH. lia.
Qed.

Lemma take_clean n : forall s,
  StackArray.clean s = true -> StackArray.clean (StackArray.take n s) = true.
Proof.
  induction n as [|n IH]; intros [|c s] H; simpl; try reflexivity.
  simpl in H. apply andb_true_iff in H. destruct H as [Hc Hs].
  now rewrite Hc, IH.
Qed.

Lemma strncpy_inside dest src n i :
  0 <= i < n ->
  StackArray.strncpy dest src n i
  = StackArray.char_of (StackArray.until_nul src) (Z.to_nat i).
Proof.
  intros H. unfold StackArray.strncpy.
  destruct (Z.leb_spec 0 i), (Z.ltb_spec i n); simpl; try lia. reflexivity.
Qed.

Lemma strncpy_outside dest src n i :
  ~ (0 <= i < n) -> StackArray.strncpy dest src n i = dest i.
Proof.
  intros H. unfold StackArray.strncpy.
  destruct (Z.leb_spec 0 i), (Z.ltb_spec i n); simpl; try lia; reflexivity.
Qed.

(** A string that fits is read back whole from the array it was copied to. *)
Lemma read_copied dest src :
  StackArray.fits src ->
  StackArray.read_string (StackArray.strncpy dest src (StackArray.MAX_LEN - 1))
  = Ok (StackArray.until_nul src).
Proof.
  unfold StackArray.fits, StackArray.read_string, StackArray.MAX_LEN. intros H.
  apply scan_reads.
  - apply clean_until_nul.
  - intros i Hi. rewrite strncpy_inside by lia. simpl. now rewrite Nat2Z.id.
  - lia.
Qed.

(** ** [init_store] *)

(** X21.  Whatever the store held before and however long the given name is,
    [init_store] leaves an empty store whose name is terminated: it reads back
    as the first [MAX_LEN - 1] characters of the given C string, and
    [list_items] reports that there is no item. *)
Theorem init_store_terminated garbage nm out :
  StackArray.count (StackArray.init_store garbage nm) = 0 /\
  StackArray.read_string (StackArray.name (StackArray.init_store garbage nm))
  = Ok (StackArray.take 255 (StackArray.until_nul nm)) /\
  StackArray.list_items (StackArray.init_store garbage nm) out
  = Ok (out ++ StackArray.listing []).
Proof.
  split; [reflexivity|]. split; [|reflexivity].
  unfold StackArray.read_string, StackArray.MAX_LEN.
  pose proof (take_length 255 (StackArray.until_nul nm)) as Hlen.
  pose proof (take_get 255 (StackArray.until_nul nm)) as Hget.
  pose proof (take_clean 255 _ (clean_until_nul nm)) as Hclean.
  set (s := StackArray.take 255 (StackArray.until_nul nm)) in *.
  apply scan_reads.
  - exact Hclean.
  - intros i Hi. unfold StackArray.init_store, StackArray.set_char, StackArray.MAX_LEN.
    cbn [StackArray.name]. rewrite Z.add_0_l.
    destruct (Z.eqb_spec (Z.of_nat i) (256 - 1)) as [E|E].
    + unfold StackArray.char_of. rewrite get_none by lia. reflexivity.
    + rewrite strncpy_inside by lia. rewrite Nat2Z.id.
      unfold StackArray.char_of. rewrite Hget by lia. reflexivity.
  - lia.
Qed.

(** ** [add_item] *)

(** X22.  On a store that is not full, [add_item] returns 0, counts one item more,
    and the new item reads back as the given key and value when both fit; the
    other items and the name of the store are as before. *)
Theorem add_item_round_trip store k v out :
  0 <= StackArray.count store < StackArray.MAX_ITEMS ->
  StackArray.fits k -> StackArray.fits v ->
  exists store',
    StackArray.add_item store k v out
    = Ok (store', 0,
          out ++ [printf ("✅ Added: %s = %s" ++ nl)
                    [AStr (StackArray.until_nul k); AStr (StackArray.until_nul v)]]) /\
    StackArray.count store' = StackArray.count store + 1 /\
    StackArray.read_string (StackArray.key (StackArray.items store' (StackArray.count store)))
    = Ok (StackArray.until_nul k) /\
    StackArray.read_string (StackArray.value (StackArray.items store' (StackArray.count store)))
    = Ok (StackArray.until_nul v) /\
    (forall i, i <> StackArray.count store ->
       StackArray.items store' i = StackArray.items store i) /\
    StackArray.name store' = StackArray.name store.
Proof.
  intros Hc Hk Hv. unfold StackArray.add_item, StackArray.load_item, StackArray.in_items.
  destruct (Z.leb_spec StackArray.MAX_ITEMS (StackArray.count store)); [lia|].
  destruct (Z.leb_spec 0 (StackArray.count store)); [|lia].
  destruct (Z.ltb_spec (StackArray.count store) StackArray.MAX_ITEMS); [|lia].
  simpl. eexists. split; [reflexivity|]. simpl.
  unfold StackArray.set_item. rewrite Z.eqb_refl. simpl.
  split; [reflexivity|]. split; [now apply read_copied|].
  split; [now apply read_copied|]. split; [|reflexivity].
  intros i Hi. now destruct (Z.eqb_spec i (StackArray.count store)).
Qed.

Lemma add_item_round_trip_witness :
  exists store',
    StackArray.add_item (StackArray.init_store (StackArray.mkStore
        (fun _ => StackArray.mkItem (fun _ => "x"%char) (fun _ => "y"%char)) 7
        (fun _ => "z"%char)) "demo") "language" "C" []
    = Ok (store', 0, [] ++ [printf ("✅ Added: %s = %s" ++ nl) [AStr "language"; AStr "C"]]) /\
    StackArray.count store' = 0 + 1 /\
    StackArray.read_string (StackArray.key (StackArray.items store' 0)) = Ok "language"%string /\
    StackArray.read_string (StackArray.value (StackArray.items store' 0)) = Ok "C"%string /\
    (forall i, i <> 0 ->
       StackArray.items store' i = StackArray.mkItem (fun _ => "x"%char) (fun _ => "y"%char)) /\
    StackArray.name store'
    = StackArray.name (StackArray.init_store (StackArray.mkStore
        (fun _ => StackArray.mkItem (fun _ => "x"%char) (fun _ => "y"%char)) 7
        (fun _ => "z"%char)) "demo").
Proof.
  apply (add_item_round_trip
           (StackArray.init_store (StackArray.mkStore
              (fun _ => StackArray.mkItem (fun _ => "x"%char) (fun _ => "y"%char)) 7
              (fun _ => "z"%char)) "demo") "language" "C" []).
  - unfold StackArray.MAX_ITEMS. simpl. lia.
  - unfold StackArray.fits, StackArray.MAX_LEN. simpl. lia.
  - unfold StackArray.fits, StackArray.MAX_LEN. simpl. lia.
Defined.

(** X23.  On a full store every call of [add_item] is refused: it returns -1,
    prints its message and leaves the store exactly as it was. *)
Theorem add_items_full store kvs out :
  StackArray.MAX_ITEMS <= StackArray.count store ->
  StackArray.add_items store kvs out
  = Ok (store, repeat (-1) (List.length kvs),
        out ++ repeat (printf ("❌ Store is full!" ++ nl) []) (List.length kvs)).
Proof.
  intros Hfull. revert out. induction kvs as [|[k v] kvs IH]; intros out; simpl.
  - now rewrite app_nil_r.
  - unfold StackArray.add_item.
    destruct (Z.leb_spec StackArray.MAX_ITEMS (StackArray.count store)); [|lia].
    simpl. rewrite IH. simpl. now rewrite <- app_assoc.
Qed.

Lemma add_items_full_witness :
  StackArray.add_items
    (StackArray.mkStore (fun _ => StackArray.mkItem (fun _ => "x"%char) (fun _ => "y"%char))
       100 (fun _ => "z"%char))
    [("a"%string, "b"%string); ("c"%string, "d"%string)] []
  = Ok (StackArray.mkStore (fun _ => StackArray.mkItem (fun _ => "x"%char) (fun _ => "y"%char))
          100 (fun _ => "z"%char),
        repeat (-1) 2,
        [] ++ repeat (printf ("❌ Store is full!" ++ nl) []) 2).
Proof.
  apply (add_items_full
           (StackArray.mkStore (fun _ => StackArray.mkItem (fun _ => "x"%char) (fun _ => "y"%char))
              100 (fun _ => "z"%char))
           [("a"%string, "b"%string); ("c"%string, "d"%string)] []).
  unfold StackArray.MAX_ITEMS. simpl. lia.
Defined.

(** X24.  The count stays within [[0, MAX_ITEMS]]: after any number of calls of
    [add_item] on a store with such a count, the count has grown by the number
    of calls, up to [MAX_ITEMS]; the calls that found room returned 0 and the
    later ones -1.  The name of the store is not touched. *)
Theorem add_items_count store kvs out :
  0 <= StackArray.count store <= StackArray.MAX_ITEMS ->
  exists store' codes out',
    StackArray.add_items store kvs out = Ok (store', codes, out') /\
    StackArray.count store'
    = Z.min (StackArray.count store + Z.of_nat (List.length kvs)) StackArray.MAX_ITEMS /\
    codes = repeat 0 (Z.to_nat (StackArray.count store' - StackArray.count store))
            ++ repeat (-1) (List.length kvs
                            - Z.to_nat (StackArray.count store' - StackArray.count store)) /\
    StackArray.name store' = StackArray.name store.
Proof.
  revert store out. induction kvs as [|[k v] kvs IH]; intros store out Hc.
  - exists store, [], out. split; [reflexivity|]. split; [simpl; lia|].
    split; [|reflexivity]. now rewrite Z.sub_diag.
  - destruct (Z.eq_dec (StackArray.count store) StackArray.MAX_ITEMS) as [Hfull|Hroom].
    + rewrite add_items_full by lia. do 3 eexists. split; [reflexivity|].
      split; [cbn [List.length]; lia|]. split; [|reflexivity].
      now rewrite Z.sub_diag.
    + simpl. unfold StackArray.add_item, StackArray.load_item, StackArray.in_items.
      destruct (Z.leb_spec StackArray.MAX_ITEMS (StackArray.count store)); [lia|].
      destruct (Z.leb_spec 0 (StackArray.count store)); [|lia].
      destruct (Z.ltb_spec (StackArray.count store) StackArray.MAX_ITEMS); [|lia].
      cbn [bind andb].
      match goal with |- context [StackArray.add_items ?s kvs ?o] =>
        destruct (IH s o) as (store' & codes & out' & E & Hcount & Hcodes & Hname);
        [cbn [StackArray.count]; lia|]; rewrite E
      end.
      cbn [StackArray.count StackArray.name] in *.
      exists store', (0 :: codes), out'. split; [reflexivity|].
      split; [rewrite Hcount; cbn [List.length]; lia|]. split; [|assumption].
      rewrite Hcodes.
      replace (Z.to_nat (StackArray.count store' - StackArray.count store))
        with (S (Z.to_nat (StackArray.count store' - (StackArray.count store + 1))))
        by (cbn [List.length] in *; lia).
      reflexivity.
Qed.

Lemma add_items_count_witness :
  exists store' codes out',
    StackArray.add_items
      (StackArray.mkStore (fun _ => StackArray.mkItem (fun _ => "x"%char) (fun _ => "y"%char))
         99 (fun _ => "z"%char))
      [("a"%string, "b"%string); ("c"%string, "d"%string)] []
    = Ok (store', codes, out') /\
    StackArray.count store' = Z.min (99 + Z.of_nat 2) StackArray.MAX_ITEMS /\
    codes = repeat 0 (Z.to_nat (StackArray.count store' - 99))
            ++ repeat (-1) (2 - Z.to_nat (StackArray.count store' - 99)) /\
    StackArray.name store' = (fun _ => "z"%char).
Proof.
  apply (add_items_count
           (StackArray.mkStore (fun _ => StackArray.mkItem (fun _ => "x"%char) (fun _ => "y"%char))
              99 (fun _ => "z"%char))
           [("a"%string, "b"%string); ("c"%string, "d"%string)] []).
  unfold StackArray.MAX_ITEMS. simpl. lia.
Defined.

(** ** [list_items] *)

Lemma firstn_snoc {A : Type} (l : list A) : forall n x,
  nth_error l n = Some x -> firstn (S n) l = firstn n l ++ [x].
Proof.
  induction l as [|a l IH]; intros [|n] x H; simpl in *; try discriminate.
  - now injection H as ->.
  - f_equal. now apply IH.
Qed.

Lemma list_items_holds store kvs out :
  StackArray.holds store kvs ->
  Z.of_nat (List.length kvs) <= StackArray.MAX_ITEMS ->
  StackArray.list_items store out = Ok (out ++ StackArray.listing kvs).
Proof.
  intros [Hcount Hread] Hcap. unfold StackArray.list_items.
  destruct kvs as [|kv kvs]; [now rewrite Hcount|].
  set (l := kv :: kvs) in *.
  destruct (Z.eqb_spec (StackArray.count store) 0) as [E|_];
    [rewrite Hcount in E; subst l; simpl in E; lia|].
  set (header := printf _ [AInt (StackArray.count store)]).
  set (line := fun kv : string * string =>
                 printf ("   %s: %s" ++ nl) [AStr (fst kv); AStr (snd kv)]).
  match goal with |- for_loop _ ?body _ = _ =>
    destruct (for_loop_rule (fun i o =>
      o = (out ++ [header]) ++ map line (firstn (Z.to_nat i) l))
      (StackArray.count store) body (out ++ [header])) as (o & Eo & Ho)
  end.
  - simpl. now rewrite app_nil_r.
  - intros i o Hi ->. cbv beta.
    destruct (nth_error l (Z.to_nat i)) as [[k v]|] eqn:En;
      [|apply nth_error_None in En; lia].
    destruct (Hread _ _ _ En) as [Hk Hv]. rewrite Z2Nat.id in Hk, Hv by lia.
    unfold StackArray.load_item, StackArray.in_items.
    destruct (Z.leb_spec 0 i); [|lia].
    destruct (Z.ltb_spec i StackArray.MAX_ITEMS); [|lia].
    cbn [andb bind]. rewrite Hk, Hv. cbn [bind].
    eexists. split; [reflexivity|].
    replace (Z.to_nat (i + 1)) with (S (Z.to_nat i)) by lia.
    rewrite (firstn_snoc l _ _ En), map_app, app_assoc. reflexivity.
  - rewrite Eo, Ho, Hcount.
    replace (Z.to_nat (Z.max 0 (Z.of_nat (List.length l)))) with (List.length l) by lia.
    rewrite firstn_all, <- app_assoc.
    unfold header. rewrite Hcount. reflexivity.
Qed.

Lemma add_item_holds store kvs k v out :
  StackArray.holds store kvs ->
  Z.of_nat (List.length kvs) < StackArray.MAX_ITEMS ->
  StackArray.fits k -> StackArray.fits v ->
  exists store' out',
    StackArray.add_item store k v out = Ok (store', 0, out') /\
    StackArray.holds store' (kvs ++ [(StackArray.until_nul k, StackArray.until_nul v)]).
Proof.
  intros [Hcount Hread] Hroom Hk Hv.
  destruct (add_item_round_trip store k v out) as
    (store' & E & Hcount' & Hkey & Hvalue & Hothers & _); [lia|assumption|assumption|].
  exists store'. eexists. split; [exact E|]. split.
  - rewrite Hcount', Hcount, length_app. simpl. lia.
  - intros i k' v' Hi.
    destruct (Nat.lt_ge_cases i (List.length kvs)) as [Hlt|Hge].
    + rewrite nth_error_app1 in Hi by assumption.
      rewrite Hothers by lia. now apply Hread.
    + rewrite nth_error_app2 in Hi by assumption.
      destruct (i - List.length kvs)%nat as [|d] eqn:Ed; simpl in Hi;
        [|destruct d; discriminate].
      injection Hi as <- <-.
      replace (Z.of_nat i) with (StackArray.count store) by lia. auto.
Qed.

Lemma add_items_holds kvs : forall store done out,
  StackArray.holds store done ->
  Z.of_nat (List.length done + List.length kvs) <= StackArray.MAX_ITEMS ->
  Forall (fun kv => StackArray.fits (fst kv) /\ StackArray.fits (snd kv)) kvs ->
  exists store' out',
    StackArray.add_items store kvs out
    = Ok (store', repeat 0 (List.length kvs), out') /\
    StackArray.holds store' (done ++ StackArray.c_strings kvs).
Proof.
  induction kvs as [|[k v] kvs IH]; intros store done out Hholds Hcap Hfit.
  - exists store, out. split; [reflexivity|]. simpl. now rewrite app_nil_r.
  - inversion Hfit as [|kv l [Hk Hv] Hrest]; subst. simpl in Hk, Hv.
    destruct (add_item_holds store done k v out Hholds) as (s1 & o1 & E1 & H1);
      [simpl in Hcap; lia|assumption|assumption|].
    destruct (IH s1 _ o1 H1) as (s2 & o2 & E2 & H2);
      [rewrite length_app; simpl in *; lia|assumption|].
    exists s2, o2. split.
    + simpl. rewrite E1. cbn [bind]. rewrite E2. reflexivity.
    + simpl. now rewrite <- app_assoc in H2.
Qed.

(** X25.  Starting from [init_store], after at most [MAX_ITEMS] calls of [add_item]
    with keys and values that fit, every call has returned 0 and [list_items]
    prints the number of items and then the keys and values that were given,
    in the order of the calls. *)
Theorem list_items_round_trip garbage nm kvs out out2 :
  Z.of_nat (List.length kvs) <= StackArray.MAX_ITEMS ->
  Forall (fun kv => StackArray.fits (fst kv) /\ StackArray.fits (snd kv)) kvs ->
  exists store out',
    StackArray.add_items (StackArray.init_store garbage nm) kvs out
    = Ok (store, repeat 0 (List.length kvs), out') /\
    StackArray.count store = Z.of_nat (List.length kvs) /\
    StackArray.list_items store out2
    = Ok (out2 ++ StackArray.listing (StackArray.c_strings kvs)).
Proof.
  intros Hcap Hfit.
  destruct (add_items_holds kvs (StackArray.init_store garbage nm) [] out)
    as (store & out' & E & Hholds); [|simpl; lia|assumption|].
  - split; [reflexivity|]. intros [|i] k v H; discriminate H.
  - exists store, out'. split; [assumption|]. simpl in Hholds.
    assert (Hlen : List.length (StackArray.c_strings kvs) = List.length kvs)
      by apply length_map.
    split; [destruct Hholds as [-> _]; now rewrite Hlen|].
    apply list_items_holds; [assumption|]. now rewrite Hlen.
Qed.

Lemma list_items_round_trip_witness :
  exists store out',
    StackArray.add_items
      (StackArray.init_store
         (StackArray.mkStore (fun _ => StackArray.mkItem (fun _ => "x"%char) (fun _ => "y"%char))
            7 (fun _ => "z"%char)) "Stack Array")
      [("project"%string, "Stack Array"%string); ("language"%string, "C"%string)] []
    = Ok (store, repeat 0 2, out') /\
    StackArray.count store = Z.of_nat 2 /\
    StackArray.list_items store []
    = Ok ([] ++ StackArray.listing
                  (StackArray.c_strings
                     [("project"%string, "Stack Array"%string);
                      ("language"%string, "C"%string)])).
Proof.
  apply (list_items_round_trip
           (StackArray.mkStore (fun _ => StackArray.mkItem (fun _ => "x"%char) (fun _ => "y"%char))
              7 (fun _ => "z"%char)) "Stack Array"
           [("project"%string, "Stack Array"%string); ("language"%string, "C"%string)] [] []).
  - unfold StackArray.MAX_ITEMS. simpl. lia.
  - repeat constructor; unfold StackArray.fits, StackArray.MAX_LEN; simpl; lia.
Defined.

(** ** Keys that do not fit *)

Lemma for_each_hits_undefined {S : Type} (l : list Z) (body : Z -> S -> outcome S) k :
  In k l -> (forall s, body k s = Undefined) ->
  forall s, for_each l body s = Undefined.
Proof.
  intros Hin Hbad. induction l as [|i l IH]; intros s; [contradiction|]. simpl.
  destruct Hin as [->|Hin].
  - now rewrite Hbad.
  - destruct (body i s); simpl; [now apply IH|reflexivity].
Qed.

(** X26.  [add_item] does not terminate a key of [MAX_LEN - 1] characters or more:
    it copies the first [MAX_LEN - 1] characters and leaves the last character
    of the array as it was.  When that character is not a NUL, the key cannot
    be read back within its array, and [list_items] has no defined outcome. *)
Theorem add_item_long_key store k v out :
  0 <= StackArray.count store < StackArray.MAX_ITEMS ->
  StackArray.MAX_LEN - 1 <= Z.of_nat (String.length (StackArray.until_nul k)) ->
  StackArray.is_nul (StackArray.key (StackArray.items store (StackArray.count store))
                       (StackArray.MAX_LEN - 1)) = false ->
  exists store' out',
    StackArray.add_item store k v out = Ok (store', 0, out') /\
    (forall i, 0 <= i < StackArray.MAX_LEN - 1 ->
       StackArray.key (StackArray.items store' (StackArray.count store)) i
       = StackArray.char_of (StackArray.until_nul k) (Z.to_nat i)) /\
    StackArray.key (StackArray.items store' (StackArray.count store)) (StackArray.MAX_LEN - 1)
    = StackArray.key (StackArray.items store (StackArray.count store)) (StackArray.MAX_LEN - 1) /\
    StackArray.read_string (StackArray.key (StackArray.items store' (StackArray.count store)))
    = Undefined /\
    forall out2, StackArray.list_items store' out2 = Undefined.
Proof.
  intros Hc Hlong Hlast.
  unfold StackArray.add_item, StackArray.load_item, StackArray.in_items.
  destruct (Z.leb_spec StackArray.MAX_ITEMS (StackArray.count store)); [lia|].
  destruct (Z.leb_spec 0 (StackArray.count store)); [|lia].
  destruct (Z.ltb_spec (StackArray.count store) StackArray.MAX_ITEMS); [|lia].
  cbn [andb bind]. do 2 eexists. split; [reflexivity|].
  cbn [StackArray.items StackArray.count StackArray.key StackArray.value].
  unfold StackArray.set_item. rewrite Z.eqb_refl. cbn [StackArray.key].
  set (c := StackArray.count store) in *.
  set (old := StackArray.key (StackArray.items store c)) in *.
  assert (Hcopy : forall i, 0 <= i < StackArray.MAX_LEN - 1 ->
            StackArray.strncpy old k (StackArray.MAX_LEN - 1) i
            = StackArray.char_of (StackArray.until_nul k) (Z.to_nat i))
    by (intros; now apply strncpy_inside).
  assert (Hkeep : StackArray.strncpy old k (StackArray.MAX_LEN - 1) (StackArray.MAX_LEN - 1)
                  = old (StackArray.MAX_LEN - 1))
    by (apply strncpy_outside; lia).
  assert (Hread : StackArray.read_string (StackArray.strncpy old k (StackArray.MAX_LEN - 1))
                  = Undefined).
  { unfold StackArray.read_string. apply scan_runs_past. intros i Hi.
    rewrite Z.add_0_l.
    destruct (Z.eq_dec (Z.of_nat i) (StackArray.MAX_LEN - 1)) as [E|E].
    - now rewrite E, Hkeep.
    - unfold StackArray.MAX_LEN in *. rewrite Hcopy, Nat2Z.id by lia.
      destruct (get_some (StackArray.until_nul k) i) as (ch & Hch); [lia|].
      unfold StackArray.char_of. rewrite Hch.
      exact (get_clean _ _ _ (clean_until_nul k) Hch). }
  split; [assumption|]. split; [assumption|]. split; [assumption|].
  intros out2. unfold StackArray.list_items. cbn [StackArray.count].
  destruct (Z.eqb_spec (c + 1) 0); [lia|].
  apply (for_each_hits_undefined _ _ c); [apply in_upto; lia|].
  intros s. unfold StackArray.load_item, StackArray.in_items.
  destruct (Z.leb_spec 0 c); [|lia].
  destruct (Z.ltb_spec c StackArray.MAX_ITEMS); [|lia].
  cbn [andb bind StackArray.items]. rewrite Z.eqb_refl. cbn [StackArray.key].
  now rewrite Hread.
Qed.

Lemma add_item_long_key_witness :
  exists store' out',
    StackArray.add_item
      (StackArray.mkStore (fun _ => StackArray.mkItem (fun _ => "x"%char) (fun _ => "y"%char))
         0 (fun _ => "z"%char))
      (StackArray.take 300 (String.concat "" (repeat "abcdefghij"%string 30))) "v" []
    = Ok (store', 0, out') /\
    (forall i, 0 <= i < StackArray.MAX_LEN - 1 ->
       StackArray.key (StackArray.items store' 0) i
       = StackArray.char_of
           (StackArray.until_nul
              (StackArray.take 300 (String.concat "" (repeat "abcdefghij"%string 30))))
           (Z.to_nat i)) /\
    StackArray.key (StackArray.items store' 0) (StackArray.MAX_LEN - 1) = "x"%char /\
    StackArray.read_string (StackArray.key (StackArray.items store' 0)) = Undefined /\
    forall out2, StackArray.list_items store' out2 = Undefined.
Proof.
  apply (add_item_long_key
           (StackArray.mkStore (fun _ => StackArray.mkItem (fun _ => "x"%char) (fun _ => "y"%char))
              0 (fun _ => "z"%char))
           (StackArray.take 300 (String.concat "" (repeat "abcdefghij"%string 30))) "v" []).
  - unfold StackArray.MAX_ITEMS. simpl. lia.
  - vm_compute. discriminate.
  - reflexivity.
Defined.

(** ** The demonstration run of the store *)

(** X27.  Whatever the local [store] of [main] holds before [init_store], [main]
    never leaves an array, returns 0, and lists exactly the three items it
    added, in the order it added them. *)
Theorem stack_array_main garbage :
  StackArray.main garbage
  = Ok (0,
        [printf ("==================================================" ++ nl) [];
         printf ("  Stack Array" ++ nl) [];
         printf ("==================================================" ++ nl) [];
         printf ("✅ Added: %s = %s" ++ nl) [AStr "project"; AStr "Stack Array"];
         printf ("✅ Added: %s = %s" ++ nl) [AStr "language"; AStr "C"];
         printf ("✅ Added: %s = %s" ++ nl) [AStr "date"; AStr "2026-02-15"]]
        ++ StackArray.listing
             [("project"%string, "Stack Array"%string);
              ("language"%string, "C"%string);
              ("date"%string, "2026-02-15"%string)]
        ++ [printf (nl ++ "👋 Done!" ++ nl) []]).
Proof. vm_compute. reflexivity. Qed.
